(** * Structure compression: the bit quantizer and the naive compressor

    A shallow embedding of [examples/StructureCompression.ipynb]:
    [discretize_to_bits], [decode_from_bits], the idealised backbone
    constants, [NaiveCompressor] and the twelve-byte configurations.

    Numeric model.  NumPy [float64] is taken as exact arithmetic: a
    finite value is an exact rational (no rounding error, no overflow to
    infinity, no signed zero), and the three special values a division by
    zero can produce are kept.  The constants of the notebook are the
    exact values of their [float64] literals.  Integer codes are [int32],
    as the [.astype(np.int32)] of the source makes them, and arithmetic on
    an [int32] array wraps around.  An array of shape (N, 3) is a list of
    rows of three entries.

    Not modelled: the [OverflowError] NumPy raises when a Python integer
    of a call does not convert to the type of the array or to a float
    ([bits] of a thousand and more, a signed configuration of more than
    32 bits in [decode_from_bits], a negative [bits] of astronomic
    size).  Every statement below that a call returns a value is made
    for configurations of 0 to 31 bits (32 where only
    [discretize_to_bits] is called), where no such integer occurs. *)

From Stdlib Require Import ZArith QArith Qround Qabs Qpower Qfield Lia Lqa List.
From Stdlib Require Import Ascii.
From stdpp Require Import gmap strings.

Local Open Scope Q_scope.

(** ** float64 values *)

Inductive npfloat : Type :=
| Fin (q : Q)
| PInf
| NInf
| NaN.

Definition is_finite (x : npfloat) : bool :=
  match x with Fin _ => true | _ => false end.

Definition fneg (x : npfloat) : npfloat :=
  match x with
  | Fin q => Fin (- q)
  | PInf => NInf
  | NInf => PInf
  | NaN => NaN
  end.

Definition fadd (x y : npfloat) : npfloat :=
  match x, y with
  | NaN, _ | _, NaN => NaN
  | Fin a, Fin b => Fin (a + b)
  | PInf, NInf | NInf, PInf => NaN
  | PInf, _ | _, PInf => PInf
  | NInf, _ | _, NInf => NInf
  end.

Definition fsub (x y : npfloat) : npfloat := fadd x (fneg y).

(** An infinity of the sign of [q], NaN when [q] is zero. *)
Definition inf_of_sign (q : Q) : npfloat :=
  match Qcompare q 0 with
  | Gt => PInf
  | Lt => NInf
  | Eq => NaN
  end.

Definition fmul (x y : npfloat) : npfloat :=
  match x, y with
  | NaN, _ | _, NaN => NaN
  | Fin a, Fin b => Fin (a * b)
  | PInf, Fin q | Fin q, PInf => inf_of_sign q
  | NInf, Fin q | Fin q, NInf => inf_of_sign (- q)
  | PInf, PInf | NInf, NInf => PInf
  | PInf, NInf | NInf, PInf => NInf
  end.

(** Division as NumPy performs it on arrays: a zero divisor raises
    nothing, it gives an infinity or NaN. *)
Definition fdiv (x y : npfloat) : npfloat :=
  match x, y with
  | NaN, _ | _, NaN => NaN
  | Fin a, Fin b => if Qeq_bool b 0 then inf_of_sign a else Fin (a / b)
  | Fin _, _ => Fin 0
  | PInf, Fin b => if Qle_bool 0 b then PInf else NInf
  | NInf, Fin b => if Qle_bool 0 b then NInf else PInf
  | _, _ => NaN
  end.

(** ** [np.round], [.astype(np.int32)] and [int32] arithmetic *)

(** Round a rational to the nearest integer, a tie going to the even
    neighbour: the rule of [np.round] (and of [np.rint]). *)
Definition rint (q : Q) : Z :=
  let f := Qfloor q in
  match Qcompare (q - inject_Z f) (1 # 2) with
  | Lt => f
  | Gt => (f + 1)%Z
  | Eq => if Z.even f then f else (f + 1)%Z
  end.

Definition np_round (x : npfloat) : npfloat :=
  match x with
  | Fin q => Fin (inject_Z (rint q))
  | _ => x
  end.

Definition INT32_MIN : Z := (- 2 ^ 31)%Z.
Definition INT32_MAX : Z := (2 ^ 31 - 1)%Z.

Definition in_int32 (z : Z) : bool :=
  ((INT32_MIN <=? z) && (z <=? INT32_MAX))%Z.

(** Truncation toward zero, the conversion of a C cast. *)
Definition Qtrunc (q : Q) : Z :=
  if Qle_bool 0 q then Qfloor q else Qceiling q.

(** The cast to [int32].  A value that does not fit, an infinity and NaN
    have no defined conversion; the model takes what x86-64 produces for
    them, the "integer indefinite" value [INT32_MIN]. *)
Definition astype_int32 (x : npfloat) : Z :=
  match x with
  | Fin q => let z := Qtrunc q in if in_int32 z then z else INT32_MIN
  | _ => INT32_MIN
  end.

(** Two's complement wrap-around of [int32] arithmetic. *)
Definition wrap32 (z : Z) : Z := ((z + 2 ^ 31) mod 2 ^ 32 - 2 ^ 31)%Z.

(** ** Python scalars *)

(** The Python numbers of the two functions: [2 ** n] is an [int] for
    [n >= 0] and a [float] for a negative [n]. *)
Inductive pynum : Type :=
| PyInt (z : Z)
| PyFloat (q : Q).

Definition py_value (x : pynum) : Q :=
  match x with
  | PyInt z => inject_Z z
  | PyFloat q => q
  end.

Definition py_pow2 (n : Z) : pynum :=
  if (0 <=? n)%Z then PyInt (2 ^ n) else PyFloat (2 ^ n).

Definition py_sub (x y : pynum) : pynum :=
  match x, y with
  | PyInt a, PyInt b => PyInt (a - b)
  | _, _ => PyFloat (py_value x - py_value y)
  end.

Definition py_neg (x : pynum) : pynum :=
  match x with
  | PyInt a => PyInt (- a)
  | PyFloat q => PyFloat (- q)
  end.

(** [arr - s] for an element [code] of an [int32] array and a Python
    scalar [s].  With an integer that fits [int32] the array stays
    [int32] and the difference wraps around.  A wider integer promotes the
    array to a wider type (NumPy 1; NumPy 2 raises [OverflowError]
    instead) and a float makes it [float64]: the difference is exact. *)
Definition int32_sub_scalar (code : Z) (s : pynum) : Q :=
  match s with
  | PyInt m =>
      if in_int32 m then inject_Z (wrap32 (code - m)) else inject_Z (code - m)
  | PyFloat q => inject_Z code - q
  end.

(** ** The quantizer *)

(** [(max_int_val, min_int_val)], as both functions compute them. *)
Definition int_vals (bits : Z) (signed : bool) : pynum * pynum :=
  if signed
  then (py_sub (py_pow2 (bits - 1)) (PyInt 1), py_neg (py_pow2 (bits - 1)))
  else (py_sub (py_pow2 bits) (PyInt 1), PyInt 0).

(** The value [scaled] of [discretize_to_bits], before rounding. *)
Definition scaled_value (x : npfloat) (bits : Z) (max_val min_val : Q)
    (signed : bool) : npfloat :=
  let '(max_int_val, min_int_val) := int_vals bits signed in
  let normalized := fdiv (fsub x (Fin min_val)) (Fin (max_val - min_val)) in
  fadd (fmul normalized (Fin (py_value (py_sub max_int_val min_int_val))))
       (Fin (py_value min_int_val)).

(** One element of the array; NumPy applies it to every element. *)
Definition discretize_to_bits (x : npfloat) (bits : Z) (max_val min_val : Q)
    (signed : bool) : Z :=
  let scaled := scaled_value x bits max_val min_val signed in
  astype_int32 (np_round scaled).

(** One element [code] of an [int32] array, as [discretize_to_bits]
    returns it. *)
Definition decode_from_bits (code : Z) (bits : Z) (max_val min_val : Q)
    (signed : bool) : npfloat :=
  let '(max_int_val, min_int_val) := int_vals bits signed in
  let normalized :=
    fdiv (Fin (int32_sub_scalar code min_int_val))
         (Fin (py_value (py_sub max_int_val min_int_val))) in
  fadd (fmul normalized (Fin (max_val - min_val))) (Fin min_val).

(** A quantization configuration: the keyword dictionary passed as
    [**config].  [min_val] and [signed] are optional in the source
    (defaults [0] and [False]); here they are always written. *)
Record bit_conf : Type := BitConf {
  bits : Z;
  max_val : Q;
  min_val : Q;
  signed : bool
}.

Definition discretize (x : npfloat) (c : bit_conf) : Z :=
  discretize_to_bits x (bits c) (max_val c) (min_val c) (signed c).

Definition decode (code : Z) (c : bit_conf) : npfloat :=
  decode_from_bits code (bits c) (max_val c) (min_val c) (signed c).

(** The integer code range the comments of the source declare. *)
Definition min_int (c : bit_conf) : Z :=
  if signed c then (- 2 ^ (bits c - 1))%Z else 0%Z.
Definition max_int (c : bit_conf) : Z :=
  if signed c then (2 ^ (bits c - 1) - 1)%Z else (2 ^ bits c - 1)%Z.

(** Half a quantization step. *)
Definition half_step (c : bit_conf) : Q :=
  (max_val c - min_val c) / (2 * (2 ^ bits c - 1)).

(** [within x v tol]: [x] is finite and at most [tol] away from [v]. *)
Definition within (x : npfloat) (v tol : Q) : bool :=
  match x with
  | Fin d => Qle_bool (Qabs (d - v)) tol
  | _ => false
  end.

(** The configurations of the demonstration loop, [bits] from 1 to 9. *)
Definition bit_conf_demo (i : Z) : bit_conf :=
  {| bits := i; max_val := 2048; min_val := 0; signed := true |}.

(** ** Arrays of shape (N, 3) *)

Definition vec3 (A : Type) : Type := (A * A * A)%type.

Definition map3 {A B : Type} (f : A -> B) (r : vec3 A) : vec3 B :=
  let '(a, b, c) := r in (f a, f b, f c).

Definition zip3 {A B C : Type} (f : A -> B -> C) (r : vec3 A) (s : vec3 B)
    : vec3 C :=
  let '(a, b, c) := r in let '(a', b', c') := s in (f a a', f b b', f c c').

(** One row per residue. *)
Definition ndarray (A : Type) : Type := list (vec3 A).

(** [arr - k] and [arr + k] with the row [k] broadcast over the residues. *)
Definition sub_row (arr : ndarray npfloat) (k : vec3 Q) : ndarray npfloat :=
  map (fun r => zip3 fsub r (map3 Fin k)) arr.

Definition add_row (arr : ndarray npfloat) (k : vec3 Q) : ndarray npfloat :=
  map (fun r => zip3 fadd r (map3 Fin k)) arr.

(** The two quantizer functions applied to a whole array with [**config]. *)
Definition discretize_arr (arr : ndarray npfloat) (c : bit_conf) : ndarray Z :=
  map (map3 (fun x => discretize x c)) arr.

Definition decode_arr (arr : ndarray Z) (c : bit_conf) : ndarray npfloat :=
  map (map3 (fun k => decode k c)) arr.

(** Idealised values: the [float64] values of [1.33, 1.46, 1.52] and of
    [1.095, 0.98, 1.20]. *)
Definition BACKBONE_BOND_LENGTHS : vec3 Q :=
  (748723438050345 # 562949953421312,
   1643813863990231 # 1125899906842624,
   3422735716801577 # 2251799813685248).
Definition BACKBONE_ANGLES : vec3 Q :=
  (4931441591970693 # 4503599627370496,
   2206763817411543 # 2251799813685248,
   5404319552844595 # 4503599627370496).

(** ** The compressors *)

Inductive exn : Type :=
| KeyError (key : string).

Inductive result (A : Type) : Type :=
| Ok (a : A)
| Raise (e : exn).
Arguments Ok {A} a.
Arguments Raise {A} e.

Definition bind {A B : Type} (r : result A) (k : A -> result B) : result B :=
  match r with
  | Ok a => k a
  | Raise e => Raise e
  end.

Notation "'let*' x ':=' r 'in' k" := (bind r (fun x => k))
  (at level 10, x name, r at level 100, k at level 200).

(** [d[key]] on a Python dict. *)
Definition getitem (d : gmap string bit_conf) (key : string) : result bit_conf :=
  match d !! key with
  | Some v => Ok v
  | None => Raise (KeyError key)
  end.

(** The state of a compressor object: [self.config]. *)
Record Compressor : Type := { config : gmap string bit_conf }.

Definition internal_coords : Type :=
  (ndarray npfloat * ndarray npfloat * ndarray npfloat)%type.

Definition compressed_coords : Type :=
  (ndarray Z * ndarray Z * ndarray Z)%type.

Module NaiveCompressor.

(** [__init__] hands the dictionary to [Compressor.__init__], which stores
    it. *)
Definition init (cfg : gmap string bit_conf) : result Compressor :=
  Ok {| config := cfg |}.

Definition compress (self : Compressor) (ic : internal_coords)
    : result compressed_coords :=
  let '(bond_lengths, bond_angles, dihedrals) := ic in
  let* length_config := getitem (config self) "lengths" in
  let* angle_config := getitem (config self) "angles" in
  let* dihedral_config := getitem (config self) "dihedrals" in
  Ok (discretize_arr (sub_row bond_lengths BACKBONE_BOND_LENGTHS) length_config,
      discretize_arr (sub_row bond_angles BACKBONE_ANGLES) angle_config,
      discretize_arr dihedrals dihedral_config).

(** The three entries of the returned tuple are built from left to
    right: each key is read just before its class is decoded. *)
Definition decompress (self : Compressor) (cc : compressed_coords)
    : result internal_coords :=
  let '(c0, c1, c2) := cc in
  let* length_config := getitem (config self) "lengths" in
  let bond_lengths :=
    add_row (decode_arr c0 length_config) BACKBONE_BOND_LENGTHS in
  let* angle_config := getitem (config self) "angles" in
  let bond_angles := add_row (decode_arr c1 angle_config) BACKBONE_ANGLES in
  let* dihedral_config := getitem (config self) "dihedrals" in
  Ok (bond_lengths, bond_angles, decode_arr c2 dihedral_config).

End NaiveCompressor.

(** [np.pi], the [float64] closest to pi. *)
Definition np_pi : Q := 884279719003555 # 281474976710656.

(** The [float64] values of [-0.05] and [0.4]. *)
Definition twelve_byte_length_config : bit_conf :=
  {| bits := 6; signed := true;
     min_val := - (3602879701896397 # 72057594037927936);
     max_val := 3602879701896397 # 9007199254740992 |}.
Definition twelve_byte_angle_config : bit_conf :=
  {| bits := 12; signed := false; min_val := 0; max_val := np_pi |}.
Definition twelve_byte_torsion_config : bit_conf :=
  {| bits := 14; signed := false; min_val := - np_pi; max_val := np_pi |}.

Definition twelve_byte_config : gmap string bit_conf :=
  <["lengths" := twelve_byte_length_config]>
    (<["angles" := twelve_byte_angle_config]>
      (<["dihedrals" := twelve_byte_torsion_config]> ∅)).

(** [all_within xs ys tol]: same shape, and every entry of [ys] is finite
    and at most [tol] away from the entry of [xs] at its place. *)
Definition within3 (r : vec3 Q) (s : vec3 npfloat) (tol : Q) : bool :=
  let '(a, b, c) := r in let '(a', b', c') := s in
  within a' a tol && within b' b tol && within c' c tol.

Fixpoint all_within (xs : ndarray Q) (ys : ndarray npfloat) (tol : Q) : bool :=
  match xs, ys with
  | [], [] => true
  | r :: xs', s :: ys' => within3 r s tol && all_within xs' ys' tol
  | _, _ => false
  end.

(** Compress, then decompress, as [round_trip_rmsd] does. *)
Definition round_trip (self : Compressor) (ic : internal_coords)
    : result internal_coords :=
  let* compressed_internals := NaiveCompressor.compress self ic in
  NaiveCompressor.decompress self compressed_internals.

(** ** Conditions on configurations and inputs *)

Definition valid_conf (c : bit_conf) : Prop :=
  (1 <= bits c)%Z /\ min_val c < max_val c.

(** The declared code range lies inside [int32]. *)
Definition code_range_in_int32 (c : bit_conf) : Prop :=
  (bits c <= (if signed c then 32 else 31))%Z.

(** The number of steps, [2^bits - 1], is an [int32]: every code of the
    code range and every difference of two of them fits. *)
Definition steps_in_int32 (c : bit_conf) : Prop := (bits c <= 31)%Z.

Definition in_range (c : bit_conf) (v : Q) : Prop :=
  min_val c <= v <= max_val c.

Definition in_range3 (c : bit_conf) (r : vec3 Q) : Prop :=
  let '(a, b, d) := r in in_range c a /\ in_range c b /\ in_range c d.

(** Every entry of the array lies in the value range of [c]. *)
Definition all_in_range (c : bit_conf) (xs : ndarray Q) : Prop :=
  Forall (in_range3 c) xs.

(** An array of finite values. *)
Definition finite_arr (xs : ndarray Q) : ndarray npfloat := map (map3 Fin) xs.

(** The deviations of the rows of [xs] from the row [k]. *)
Definition deviations (xs : ndarray Q) (k : vec3 Q) : ndarray Q :=
  map (fun r => zip3 Qminus r k) xs.

(** [scaled] of [discretize_to_bits] for a finite input, when
    [bits >= 1] and the value range is not a point. *)
Definition scaled_q (v : Q) (c : bit_conf) : Q :=
  (v + - min_val c) / (max_val c - min_val c)
  * inject_Z (max_int c - min_int c) + inject_Z (min_int c).

(** [decoded] of [decode_from_bits] when [bits >= 1] and the [int32]
    difference [code - min_int_val] does not wrap around. *)
Definition decoded_q (k : Z) (c : bit_conf) : Q :=
  inject_Z (k - min_int c) / inject_Z (max_int c - min_int c)
  * (max_val c - min_val c) + min_val c.

(** The keys [compress] and [decompress] read. *)
Definition required_keys : list string := ["lengths"; "angles"; "dihedrals"].

(** ** Inputs of the examples *)

(** Thirty-two bits, unsigned, on [0, 1]: the top codes do not fit
    [int32]. *)
Definition wide_conf : bit_conf :=
  {| bits := 32; max_val := 1; min_val := 0; signed := false |}.

(** Thirty-two bits, signed, on [0, 1]: every code fits [int32], the
    number of steps does not. *)
Definition wide_signed_conf : bit_conf :=
  {| bits := 32; max_val := 1; min_val := 0; signed := true |}.

(** One bit, unsigned, on [0, 1]: the scaled value is the input. *)
Definition unit_conf : bit_conf :=
  {| bits := 1; max_val := 1; min_val := 0; signed := false |}.

(** The twelve-byte configuration with [wide_conf] for the dihedrals. *)
Definition wide_dihedral_config : gmap string bit_conf :=
  <["dihedrals" := wide_conf]> twelve_byte_config.

(** The twelve-byte configuration without its angle entry. *)
Definition no_angles_config : gmap string bit_conf :=
  delete "angles" twelve_byte_config.

(** Three arrays of one, no and two residues. *)
Definition ragged_coords : internal_coords :=
  (finite_arr [(11 # 8, 3 # 2, 25 # 16)],
   [],
   finite_arr [(3, - 3, 0); (1, 2, - 1)]).

(** ** Further conditions and inputs *)

(** A code of the declared code range. *)
Definition code_in_range (c : bit_conf) (k : Z) : Prop :=
  (min_int c <= k <= max_int c)%Z.

Definition code_in_range3 (c : bit_conf) (r : vec3 Z) : Prop :=
  let '(a, b, d) := r in
  code_in_range c a /\ code_in_range c b /\ code_in_range c d.

Definition all_codes_in_range (c : bit_conf) (arr : ndarray Z) : Prop :=
  Forall (code_in_range3 c) arr.

(** Every entry of the array lies between [lo] and [hi]. *)
Definition rows_between (lo hi : Q) (xs : ndarray Q) : Prop :=
  Forall (fun r : vec3 Q =>
            let '(a, b, d) := r in
            lo <= a <= hi /\ lo <= b <= hi /\ lo <= d <= hi) xs.

(** The configuration [c] with the keyword [signed] set to [s]. *)
Definition with_signed (s : bool) (c : bit_conf) : bit_conf :=
  {| bits := bits c; max_val := max_val c; min_val := min_val c; signed := s |}.

(** The key [compress] and [decompress] miss first, when they miss one:
    they read "lengths", then "angles", then "dihedrals". *)
Definition first_missing (cfg : gmap string bit_conf) : option string :=
  match cfg !! "lengths" with
  | None => Some "lengths"%string
  | Some _ =>
      match cfg !! "angles" with
      | None => Some "angles"%string
      | Some _ =>
          match cfg !! "dihedrals" with
          | None => Some "dihedrals"%string
          | Some _ => None
          end
      end
  end.

(** ** The label of a structure in [round_trip_rmsd] *)

(** [s.split(sep)] for a separator of one character: every occurrence
    cuts, empty pieces are kept, and there is always at least one piece. *)
Fixpoint split (sep : ascii) (s : string) : list string :=
  match s with
  | EmptyString => [EmptyString]
  | String x s' =>
      if Ascii.eqb x sep then EmptyString :: split sep s'
      else match split sep s' with
           | p :: ps => String x p :: ps
           | [] => [String x EmptyString]
           end
  end.

(** [pdb_file.split("/")[-1].split(".")[0]] *)
Definition pdb_id (pdb_file : string) : string :=
  List.hd EmptyString
    (split "." (List.last (split "/" pdb_file) EmptyString)).

(** The character [x] occurs in [s]. *)
Fixpoint occurs (x : ascii) (s : string) : bool :=
  match s with
  | EmptyString => false
  | String y s' => Ascii.eqb y x || occurs x s'
  end.

(** ** Rounding *)

(** [inject_Z (z + 1)] in the form linear arithmetic accepts. *)
Ltac push_succ :=
  rewrite ?inject_Z_plus in *; change (inject_Z 1) with 1 in *.

Section Rounding.

Lemma rint_floor_or_succ (q : Q) :
  rint q = Qfloor q \/ rint q = (Qfloor q + 1)%Z.
Proof.
  unfold rint. destruct (Qcompare _ _); [destruct (Z.even _) | |]; auto.
Qed.

Lemma Qfloor_frac (q : Q) :
  0 <= q - inject_Z (Qfloor q) /\ q - inject_Z (Qfloor q) < 1.
Proof.
  pose proof (Qfloor_le q) as Hlo. pose proof (Qlt_floor q) as Hhi.
  push_succ. split; lra.
Qed.

(** The rounded value is at most one half away. *)
Lemma rint_close (q : Q) : Qabs (inject_Z (rint q) - q) <= 1 # 2.
Proof.
  destruct (Qfloor_frac q) as [Hlo Hhi].
  apply Qabs_Qle_condition. unfold rint.
  destruct (Qcompare_spec (q - inject_Z (Qfloor q)) (1 # 2)) as [He | Hl | Hg].
  - destruct (Z.even (Qfloor q)); push_succ; split; lra.
  - split; lra.
  - push_succ. split; lra.
Qed.

Lemma rint_comp (p q : Q) : p == q -> rint p = rint q.
Proof.
  intros E. unfold rint. rewrite (Qfloor_comp _ _ E).
  assert (Hc : Qcompare (p - inject_Z (Qfloor q)) (1 # 2)
               = Qcompare (q - inject_Z (Qfloor q)) (1 # 2))
    by (apply Qcompare_comp; [rewrite E |]; reflexivity).
  now rewrite Hc.
Qed.

(** An integer is its own rounding. *)
Lemma rint_Z (z : Z) : rint (inject_Z z) = z.
Proof.
  unfold rint. rewrite Qfloor_Z.
  destruct (Qcompare_spec (inject_Z z - inject_Z z) (1 # 2)) as [He | Hl | Hg];
    [exfalso; lra | reflexivity | exfalso; lra].
Qed.

Lemma rint_of_Z (q : Q) (z : Z) : q == inject_Z z -> rint q = z.
Proof. intros E. rewrite (rint_comp _ _ E). apply rint_Z. Qed.

(** A value halfway between [k] and [k + 1] goes to the even one. *)
Lemma rint_tie (q : Q) (k : Z) :
  q == inject_Z k + (1 # 2) ->
  rint q = if Z.even k then k else (k + 1)%Z.
Proof.
  intros E.
  assert (Hf : Qfloor q = k).
  { destruct (Qfloor_frac q) as [Hlo Hhi].
    assert (H1 : (k <= Qfloor q)%Z).
    { rewrite <- (Qfloor_Z k). apply Qfloor_resp_le. lra. }
    assert (H2 : (Qfloor q < k + 1)%Z).
    { rewrite Zlt_Qlt. push_succ. lra. }
    lia. }
  unfold rint. rewrite Hf.
  destruct (Qcompare_spec (q - inject_Z k) (1 # 2)) as [He | Hl | Hg];
    [reflexivity | exfalso; lra | exfalso; lra].
Qed.

Lemma rint_mono (p q : Q) : p <= q -> (rint p <= rint q)%Z.
Proof.
  intros Hpq.
  pose proof (Qfloor_resp_le _ _ Hpq) as Hf.
  destruct (Z.eq_dec (Qfloor p) (Qfloor q)) as [E | N].
  - unfold rint. rewrite E.
    destruct (Qcompare_spec (p - inject_Z (Qfloor q)) (1 # 2)) as [He | Hl | Hg];
      destruct (Qcompare_spec (q - inject_Z (Qfloor q)) (1 # 2)) as [He' | Hl' | Hg'];
      try destruct (Z.even (Qfloor q)); try lia; exfalso; lra.
  - destruct (rint_floor_or_succ p) as [-> | ->];
      destruct (rint_floor_or_succ q) as [-> | ->]; lia.
Qed.

End Rounding.

(** ** The cast *)

Section Cast.

Lemma Qtrunc_Z (z : Z) : Qtrunc (inject_Z z) = z.
Proof.
  unfold Qtrunc. destruct (Qle_bool 0 (inject_Z z));
    [apply Qfloor_Z | apply Qceiling_Z].
Qed.

(** An integer that fits is kept by the cast. *)
Lemma astype_int32_fits (z : Z) :
  in_int32 z = true -> astype_int32 (Fin (inject_Z z)) = z.
Proof. intros H. unfold astype_int32. rewrite Qtrunc_Z. cbv zeta. now rewrite H. Qed.

(** Whatever goes in, an [int32] comes out. *)
Lemma astype_int32_range (x : npfloat) : in_int32 (astype_int32 x) = true.
Proof.
  destruct x as [q | | |]; try reflexivity.
  unfold astype_int32. cbv zeta.
  destruct (in_int32 (Qtrunc q)) eqn:E; [exact E | reflexivity].
Qed.

Lemma in_int32_iff (z : Z) :
  in_int32 z = true <-> (INT32_MIN <= z <= INT32_MAX)%Z.
Proof. unfold in_int32. rewrite andb_true_iff, !Z.leb_le. tauto. Qed.

(** No wrap-around for a value that fits. *)
Lemma wrap32_fits (z : Z) : in_int32 z = true -> wrap32 z = z.
Proof.
  intros H. apply in_int32_iff in H. unfold INT32_MIN, INT32_MAX in H.
  unfold wrap32. rewrite Z.mod_small; lia.
Qed.

Lemma int32_sub_scalar_fits (k m : Z) :
  in_int32 (k - m) = true -> int32_sub_scalar k (PyInt m) = inject_Z (k - m).
Proof.
  intros H. unfold int32_sub_scalar. rewrite (wrap32_fits _ H).
  now destruct (in_int32 m).
Qed.

End Cast.

(** ** Powers of two and the integer code range *)

Section CodeRange.

Lemma pow2_Z (n : Z) : (0 <= n)%Z -> 2 ^ n == inject_Z (2 ^ n).
Proof. intros H. symmetry. apply (Zpower_Qpower 2 n H). Qed.

Lemma pow2_double_Z (n : Z) : (1 <= n)%Z -> (2 ^ n = 2 * 2 ^ (n - 1))%Z.
Proof.
  intros H. replace n with (Z.succ (n - 1)) at 1 by lia.
  apply Z.pow_succ_r. lia.
Qed.

(** For [bits >= 1] both bounds are Python integers, the declared ones. *)
Lemma int_vals_valid (c : bit_conf) :
  (1 <= bits c)%Z ->
  int_vals (bits c) (signed c) = (PyInt (max_int c), PyInt (min_int c)).
Proof.
  intros H. unfold int_vals, max_int, min_int, py_pow2.
  destruct (signed c).
  - destruct (Z.leb_spec 0 (bits c - 1)); [reflexivity | lia].
  - destruct (Z.leb_spec 0 (bits c)); [reflexivity | lia].
Qed.

(** Signed or not, the code range spans [2^bits - 1] steps. *)
Lemma steps_Z (c : bit_conf) :
  (1 <= bits c)%Z -> (max_int c - min_int c = 2 ^ bits c - 1)%Z.
Proof.
  intros H. unfold max_int, min_int. destruct (signed c); [| lia].
  rewrite (pow2_double_Z (bits c) H). lia.
Qed.

Lemma steps_pos (c : bit_conf) :
  (1 <= bits c)%Z -> (0 < max_int c - min_int c)%Z.
Proof.
  intros H. rewrite (steps_Z c H).
  assert (2 ^ 1 <= 2 ^ bits c)%Z by (apply Z.pow_le_mono_r; lia).
  lia.
Qed.

Lemma steps_Q (c : bit_conf) :
  (1 <= bits c)%Z -> inject_Z (max_int c - min_int c) == 2 ^ bits c - 1.
Proof.
  intros H. rewrite (steps_Z c H), pow2_Z by lia.
  unfold Z.sub. rewrite inject_Z_plus. reflexivity.
Qed.

Lemma fits_min_int (c : bit_conf) :
  (1 <= bits c)%Z -> code_range_in_int32 c -> in_int32 (min_int c) = true.
Proof.
  unfold code_range_in_int32, min_int. intros H1 H2. apply in_int32_iff.
  unfold INT32_MIN, INT32_MAX. destruct (signed c).
  - assert (2 ^ (bits c - 1) <= 2 ^ 31)%Z by (apply Z.pow_le_mono_r; lia).
    assert (0 < 2 ^ (bits c - 1))%Z by (apply Z.pow_pos_nonneg; lia).
    lia.
  - lia.
Qed.

Lemma fits_max_int (c : bit_conf) :
  (1 <= bits c)%Z -> code_range_in_int32 c -> in_int32 (max_int c) = true.
Proof.
  unfold code_range_in_int32, max_int. intros H1 H2. apply in_int32_iff.
  unfold INT32_MIN, INT32_MAX. destruct (signed c).
  - assert (2 ^ (bits c - 1) <= 2 ^ 31)%Z by (apply Z.pow_le_mono_r; lia).
    assert (0 < 2 ^ (bits c - 1))%Z by (apply Z.pow_pos_nonneg; lia).
    lia.
  - assert (2 ^ bits c <= 2 ^ 31)%Z by (apply Z.pow_le_mono_r; lia).
    assert (0 < 2 ^ bits c)%Z by (apply Z.pow_pos_nonneg; lia).
    lia.
Qed.

Lemma steps_code_range (c : bit_conf) :
  steps_in_int32 c -> code_range_in_int32 c.
Proof.
  unfold steps_in_int32, code_range_in_int32. destruct (signed c); lia.
Qed.

(** With at most 31 bits the difference of two codes of the code range
    is an [int32]. *)
Lemma steps_no_wrap (c : bit_conf) (k : Z) :
  (1 <= bits c)%Z -> steps_in_int32 c ->
  (min_int c <= k <= max_int c)%Z -> in_int32 (k - min_int c) = true.
Proof.
  intros Hb Hs Hk. pose proof (steps_Z c Hb) as E.
  assert (2 ^ bits c <= 2 ^ 31)%Z
    by (apply Z.pow_le_mono_r; unfold steps_in_int32 in Hs; lia).
  apply in_int32_iff. unfold INT32_MIN, INT32_MAX. lia.
Qed.

End CodeRange.

(** ** The two affine maps on finite values *)

Section Affine.

Variable c : bit_conf.
Hypothesis Hvalid : valid_conf c.

Lemma width_pos : 0 < max_val c - min_val c.
Proof. destruct Hvalid as [_ H]. lra. Qed.

Lemma steps_Q_pos : 0 < inject_Z (max_int c - min_int c).
Proof.
  change 0 with (inject_Z 0). rewrite <- Zlt_Qlt.
  apply steps_pos, Hvalid.
Qed.

Lemma scaled_value_Fin (v : Q) :
  scaled_value (Fin v) (bits c) (max_val c) (min_val c) (signed c)
  = Fin (scaled_q v c).
Proof.
  unfold scaled_value, scaled_q.
  rewrite (int_vals_valid c (proj1 Hvalid)). simpl.
  destruct (Qeq_bool (max_val c - min_val c) 0) eqn:E; [| reflexivity].
  apply Qeq_bool_eq in E. pose proof width_pos. lra.
Qed.

Lemma discretize_Fin (v : Q) :
  discretize (Fin v) c = astype_int32 (Fin (inject_Z (rint (scaled_q v c)))).
Proof.
  unfold discretize, discretize_to_bits. cbv zeta.
  now rewrite scaled_value_Fin.
Qed.

Lemma discretize_no_overflow (v : Q) :
  in_int32 (rint (scaled_q v c)) = true ->
  discretize (Fin v) c = rint (scaled_q v c).
Proof. intros H. rewrite discretize_Fin. now apply astype_int32_fits. Qed.

Lemma decode_Fin (k : Z) :
  in_int32 (k - min_int c) = true -> decode k c = Fin (decoded_q k c).
Proof.
  intros Hk. unfold decode, decode_from_bits, decoded_q.
  rewrite (int_vals_valid c (proj1 Hvalid)).
  rewrite (int32_sub_scalar_fits _ _ Hk).
  pose proof steps_Q_pos as Hs. simpl.
  destruct (Qeq_bool (inject_Z (max_int c - min_int c)) 0) eqn:E;
    [| reflexivity].
  apply Qeq_bool_eq in E. lra.
Qed.

(** Decoding undoes the scaling exactly. *)
Lemma scaled_decoded (k : Z) : scaled_q (decoded_q k c) c == inject_Z k.
Proof.
  unfold scaled_q, decoded_q.
  pose proof width_pos. pose proof steps_Q_pos.
  unfold Z.sub at 1. rewrite inject_Z_plus, inject_Z_opp.
  field. split; lra.
Qed.

(** The error of a round trip is the rounding error, rescaled. *)
Lemma decoded_error (k : Z) (v : Q) :
  decoded_q k c - v
  == (inject_Z k - scaled_q v c)
     * ((max_val c - min_val c) / inject_Z (max_int c - min_int c)).
Proof.
  unfold scaled_q, decoded_q.
  pose proof width_pos. pose proof steps_Q_pos.
  unfold Z.sub at 1. rewrite inject_Z_plus, inject_Z_opp.
  field. split; lra.
Qed.

Lemma half_step_steps :
  half_step c == (max_val c - min_val c) / inject_Z (max_int c - min_int c) / 2.
Proof.
  unfold half_step. pose proof steps_Q_pos as Hs.
  rewrite (steps_Q c (proj1 Hvalid)) in *. field. lra.
Qed.

Lemma scaled_q_mono (v w : Q) : v <= w -> scaled_q v c <= scaled_q w c.
Proof.
  intros Hvw. unfold scaled_q.
  pose proof width_pos as Hw. pose proof steps_Q_pos as Hs.
  apply Qplus_le_l. apply Qmult_le_compat_r; [| lra].
  apply Qmult_le_compat_r; [lra |].
  apply Qlt_le_weak, Qinv_lt_0_compat, Hw.
Qed.

Lemma scaled_q_min : scaled_q (min_val c) c == inject_Z (min_int c).
Proof. unfold scaled_q. pose proof width_pos. field. lra. Qed.

Lemma scaled_q_max : scaled_q (max_val c) c == inject_Z (max_int c).
Proof.
  unfold scaled_q. pose proof width_pos.
  unfold Z.sub. rewrite inject_Z_plus, inject_Z_opp. field. lra.
Qed.

(** A value in range is coded inside the declared code range. *)
Lemma rint_scaled_in_range (v : Q) :
  in_range c v -> (min_int c <= rint (scaled_q v c) <= max_int c)%Z.
Proof.
  intros [Hlo Hhi]. split.
  - rewrite <- (rint_of_Z _ _ scaled_q_min). now apply rint_mono, scaled_q_mono.
  - rewrite <- (rint_of_Z _ _ scaled_q_max). now apply rint_mono, scaled_q_mono.
Qed.

Lemma rint_scaled_fits (v : Q) :
  code_range_in_int32 c -> in_range c v ->
  in_int32 (rint (scaled_q v c)) = true.
Proof.
  intros Hf Hv. destruct Hvalid as [Hb _].
  pose proof (rint_scaled_in_range v Hv) as [H1 H2].
  pose proof (fits_min_int c Hb Hf) as H3. pose proof (fits_max_int c Hb Hf) as H4.
  rewrite in_int32_iff in *. lia.
Qed.

(** The half-step bound, for any finite input whose code fits [int32]
    and is decoded without wrap-around. *)
Lemma roundtrip_within (v : Q) :
  in_int32 (rint (scaled_q v c)) = true ->
  in_int32 (rint (scaled_q v c) - min_int c) = true ->
  within (decode (discretize (Fin v) c) c) v (half_step c) = true.
Proof.
  intros Hfit Hsub. rewrite (discretize_no_overflow v Hfit), (decode_Fin _ Hsub).
  unfold within. apply Qle_bool_iff.
  rewrite half_step_steps, decoded_error.
  pose proof (rint_close (scaled_q v c)) as Hr.
  apply Qabs_Qle_condition in Hr. destruct Hr as [Hr1 Hr2].
  assert (Ha : 0 < (max_val c - min_val c) / inject_Z (max_int c - min_int c)).
  { apply Qlt_shift_div_l; [apply steps_Q_pos | pose proof width_pos; lra]. }
  set (a := (max_val c - min_val c) / inject_Z (max_int c - min_int c)) in *.
  set (e := inject_Z (rint (scaled_q v c)) - scaled_q v c) in *.
  clearbody a e.
  assert (H1 : e * a <= (1 # 2) * a) by (apply Qmult_le_compat_r; lra).
  assert (H2 : - (1 # 2) * a <= e * a) by (apply Qmult_le_compat_r; lra).
  assert (H3 : a / 2 == (1 # 2) * a) by field.
  apply Qabs_Qle_condition. rewrite H3. split; lra.
Qed.

(** In range and with at most 31 bits, both conditions hold. *)
Lemma roundtrip_in_range (v : Q) :
  steps_in_int32 c -> in_range c v ->
  within (decode (discretize (Fin v) c) c) v (half_step c) = true.
Proof.
  intros Hs Hv. apply roundtrip_within.
  - apply rint_scaled_fits; [now apply steps_code_range | exact Hv].
  - apply steps_no_wrap; [apply Hvalid | exact Hs | now apply rint_scaled_in_range].
Qed.

(** A code decoded without wrap-around is quantized to itself. *)
Lemma discretize_decode (k : Z) :
  in_int32 k = true -> in_int32 (k - min_int c) = true ->
  discretize (decode k c) c = k.
Proof.
  intros Hk Hsub. rewrite (decode_Fin _ Hsub), discretize_Fin.
  rewrite (rint_of_Z _ k (scaled_decoded k)).
  now apply astype_int32_fits.
Qed.

End Affine.

Lemma within_spec (x : npfloat) (v tol : Q) :
  within x v tol = true <-> exists d, x = Fin d /\ Qabs (d - v) <= tol.
Proof.
  split.
  - destruct x as [d | | |]; simpl; try discriminate.
    intros H. exists d. split; [reflexivity | now apply Qle_bool_iff].
  - intros [d [-> H]]. simpl. now apply Qle_bool_iff.
Qed.

(** [all_within] row by row. *)
Lemma all_within_Forall2 (xs : ndarray Q) (ys : ndarray npfloat) (tol : Q) :
  all_within xs ys tol = true
  <-> Forall2 (fun r s => within3 r s tol = true) xs ys.
Proof.
  revert ys. induction xs as [| r xs IH]; intros [| s ys]; simpl; split;
    try discriminate; try (intros H; inversion H; fail); try constructor.
  - apply andb_true_iff in H. apply H.
  - apply IH. apply andb_true_iff in H. apply H.
  - intros H. inversion H; subst. apply andb_true_iff. split; [assumption |].
    now apply IH.
Qed.

Lemma discretize_int32 (x : npfloat) (c : bit_conf) :
  in_int32 (discretize x c) = true.
Proof. apply astype_int32_range. Qed.

(** ** No validation of a configuration *)

Section NonFinite.

Lemma inf_of_sign_not_finite (q : Q) : is_finite (inf_of_sign q) = false.
Proof. unfold inf_of_sign. now destruct (Qcompare q 0). Qed.

Lemma fdiv_zero_not_finite (a b : Q) :
  b == 0 -> is_finite (fdiv (Fin a) (Fin b)) = false.
Proof.
  intros Hb. simpl. apply Qeq_bool_iff in Hb. rewrite Hb.
  apply inf_of_sign_not_finite.
Qed.

Lemma fmul_not_finite (x : npfloat) (q : Q) :
  is_finite x = false -> is_finite (fmul x (Fin q)) = false.
Proof.
  destruct x; simpl; try discriminate; intros _;
    auto using inf_of_sign_not_finite.
Qed.

Lemma fadd_not_finite (x : npfloat) (q : Q) :
  is_finite x = false -> is_finite (fadd x (Fin q)) = false.
Proof. destruct x; simpl; try discriminate; reflexivity. Qed.

Lemma astype_not_finite (x : npfloat) :
  is_finite x = false -> astype_int32 (np_round x) = INT32_MIN.
Proof. destruct x; simpl; try discriminate; reflexivity. Qed.

End NonFinite.

(** ** The naive compressor, array by array *)

Section NaiveRoundTrip.

Variable c : bit_conf.
Hypothesis Hvalid : valid_conf c.
Hypothesis Hsteps : steps_in_int32 c.

Lemma sub_row_finite (xs : ndarray Q) (k : vec3 Q) :
  sub_row (finite_arr xs) k = finite_arr (deviations xs k).
Proof.
  unfold sub_row, finite_arr, deviations. rewrite !map_map.
  apply map_ext. intros [[a b] d]. destruct k as [[ka kb] kd]. reflexivity.
Qed.

(** One entry quantized directly. *)
Lemma entry_direct (v : Q) :
  in_range c v ->
  within (decode (discretize (Fin v) c) c) v (half_step c) = true.
Proof.
  intros Hr. now apply roundtrip_in_range.
Qed.

(** One entry quantized as a deviation from [k], with [k] added back. *)
Lemma entry_deviation (a k : Q) :
  in_range c (a - k) ->
  within (fadd (decode (discretize (Fin (a - k)) c) c) (Fin k)) a (half_step c)
  = true.
Proof.
  intros Hr. pose proof (entry_direct _ Hr) as H.
  apply within_spec in H. destruct H as [d [-> Hd]].
  apply within_spec. exists (d + k). split; [reflexivity |].
  assert (E : d + k - a == d - (a - k)) by ring.
  now rewrite E.
Qed.

Lemma rows_direct (xs : ndarray Q) :
  all_in_range c xs ->
  all_within xs (decode_arr (discretize_arr (finite_arr xs) c) c) (half_step c)
  = true.
Proof.
  induction 1 as [| [[a b] d] xs [Ha [Hb Hd]] _ IH]; [reflexivity |].
  unfold finite_arr, discretize_arr, decode_arr in *.
  cbn [map map3 all_within within3].
  now rewrite !entry_direct, IH.
Qed.

Lemma rows_deviation (xs : ndarray Q) (k : vec3 Q) :
  all_in_range c (deviations xs k) ->
  all_within xs
    (add_row (decode_arr (discretize_arr (finite_arr (deviations xs k)) c) c) k)
    (half_step c)
  = true.
Proof.
  destruct k as [[ka kb] kd].
  induction xs as [| [[a b] d] xs IH]; [reflexivity |].
  intros H. inversion H as [| r rs Hrow Hrest]; subst.
  unfold in_range3 in Hrow. cbn [zip3] in Hrow. destruct Hrow as [Ha [Hb Hd]].
  specialize (IH Hrest).
  unfold finite_arr, deviations, discretize_arr, decode_arr, add_row in *.
  cbn [map map3 zip3 all_within within3].
  rewrite !entry_deviation by assumption. exact IH.
Qed.

End NaiveRoundTrip.

Lemma getitem_Some (d : gmap string bit_conf) (key : string) (v : bit_conf) :
  d !! key = Some v -> getitem d key = Ok v.
Proof. intros H. unfold getitem. now rewrite H. Qed.

Lemma getitem_None (d : gmap string bit_conf) (key : string) :
  d !! key = None -> getitem d key = Raise (KeyError key).
Proof. intros H. unfold getitem. now rewrite H. Qed.

(** ** The quantizer: round trip, rounding rule, order, end points *)

(** Whatever [int32] the cast yields for the top of [wide_conf], the
    decoded value misses the input by more than half a step: the failure
    does not depend on how the platform converts a value that does not
    fit. *)
Lemma wide_conf_any_code (k : Z) :
  in_int32 k = true -> within (decode k wide_conf) 1 (half_step wide_conf) = false.
Proof.
  intros Hk.
  assert (Hv : valid_conf wide_conf) by (split; [simpl; lia | reflexivity]).
  assert (Hs : in_int32 (k - min_int wide_conf) = true)
    by (change (min_int wide_conf) with 0%Z; now rewrite Z.sub_0_r).
  rewrite (decode_Fin _ Hv _ Hs). unfold within.
  apply in_int32_iff in Hk. unfold INT32_MIN, INT32_MAX in Hk.
  destruct (Qle_bool _ _) eqn:E; [| reflexivity]. exfalso.
  apply Qle_bool_iff, Qabs_Qle_condition in E. destruct E as [E _].
  assert (Hd : decoded_q k wide_conf == inject_Z k * (1 # 4294967295)).
  { unfold decoded_q. change (min_int wide_conf) with 0%Z.
    rewrite Z.sub_0_r.
    change (max_int wide_conf - 0)%Z with 4294967295%Z.
    change (max_val wide_conf) with 1. change (min_val wide_conf) with 0.
    change (inject_Z 4294967295) with (4294967295 # 1).
    field. }
  assert (Hh : half_step wide_conf == 1 # 8589934590) by reflexivity.
  rewrite Hd, Hh in E.
  assert (Hk' : inject_Z k <= 2147483647 # 1).
  { change (2147483647 # 1) with (inject_Z 2147483647). rewrite <- Zle_Qle. lia. }
  clear Hd Hh Hk Hs. generalize dependent (inject_Z k). intros z E Hz. lra.
Qed.

(** C1, as stated, fails.  [wide_conf] and [wide_signed_conf] have
    [bits >= 1] and [max_val > min_val], and [1] lies in their value
    range.  In [wide_conf] the code of [1] does not fit [int32]; in
    [wide_signed_conf] it fits, but [decode_from_bits] wraps around when
    it subtracts [min_int_val].  Either way the decoded value is more than
    half a step away from [1]. *)
Lemma C1_wide_conf_breaks_bound :
  (valid_conf wide_conf /\ in_range wide_conf 1 /\
   within (decode (discretize (Fin 1) wide_conf) wide_conf) 1
          (half_step wide_conf) = false) /\
  (valid_conf wide_signed_conf /\ in_range wide_signed_conf 1 /\
   within (decode (discretize (Fin 1) wide_signed_conf) wide_signed_conf) 1
          (half_step wide_signed_conf) = false).
Proof.
  split.
  - split; [split; [simpl; lia | reflexivity] |].
    split; [split; discriminate |].
    apply wide_conf_any_code, discretize_int32.
  - split; [split; [simpl; lia | reflexivity] |].
    split; [split; discriminate | vm_compute; reflexivity].
Qed.

(** C1, amended.  For a configuration with [1 <= bits <= 31] and
    [max_val > min_val], and a value [v] of the value range, the decoded
    code of [v] is a finite value [d] with
    [|d - v| <= (max_val - min_val) / (2 * (2^bits - 1))], signed or not. *)
Theorem C1_roundtrip_half_step (c : bit_conf) (v : Q) :
  valid_conf c -> (bits c <= 31)%Z -> min_val c <= v <= max_val c ->
  exists d, decode (discretize (Fin v) c) c = Fin d /\
            Qabs (d - v) <= (max_val c - min_val c) / (2 * (2 ^ bits c - 1)).
Proof.
  intros Hv Hs Hr. apply within_spec. now apply roundtrip_in_range.
Qed.

Lemma C1_roundtrip_half_step_witness :
  exists d, decode (discretize (Fin (1059459 # 1000)) (bit_conf_demo 9))
                   (bit_conf_demo 9) = Fin d /\
            Qabs (d - (1059459 # 1000)) <= (2048 - 0) / (2 * (2 ^ 9 - 1)).
Proof.
  apply (C1_roundtrip_half_step (bit_conf_demo 9) (1059459 # 1000)).
  - split; [simpl; lia | reflexivity].
  - simpl. lia.
  - split; discriminate.
Defined.




(** C4, as stated, fails.  Nothing rejects a configuration with
    [bits = 0] or with [min_val = max_val]: [decode_from_bits] with
    [bits = 0] divides zero by zero and returns NaN, and
    [discretize_to_bits] with [min_val = max_val = 1] divides by zero, its
    scaled value is NaN and the code is what the cast makes of NaN. *)
Lemma C4_zero_bits_gives_nan :
  decode_from_bits 0 0 2048 0 false = NaN /\
  scaled_value (Fin 1) 8 1 1 false = NaN /\
  discretize_to_bits (Fin 1) 8 1 1 false = INT32_MIN.
Proof. split; [reflexivity |]. split; reflexivity. Qed.

(** C4, amended.  Using a configuration with [bits = 0] or with
    [min_val = max_val] raises no error of a rejected configuration.
    Taking [float64] as exact arithmetic: with [bits = 0] the code range
    is a point and [decode_from_bits] returns NaN or an infinity for
    every code; with [min_val = max_val] and [0 <= bits <= 31]
    [discretize_to_bits] divides by zero for every finite input, its
    scaled value is NaN or an infinity, and the code is the cast of that
    to [int32], [INT32_MIN] on x86-64.  The bounds on [bits] keep the
    call clear of the [OverflowError] this model does not have. *)
Theorem C4_no_validation (c : bit_conf) :
  (bits c = 0%Z -> forall k : Z, is_finite (decode k c) = false) /\
  (min_val c == max_val c -> (0 <= bits c <= 31)%Z -> forall v : Q,
     is_finite (scaled_value (Fin v) (bits c) (max_val c) (min_val c) (signed c))
       = false /\
     discretize (Fin v) c = INT32_MIN).
Proof.
  split.
  - intros Hb k. unfold decode, decode_from_bits. rewrite Hb.
    destruct (signed c); cbn [int_vals];
      apply fadd_not_finite, fmul_not_finite, fdiv_zero_not_finite;
      reflexivity.
  - intros He _ v.
    assert (Hs : is_finite (scaled_value (Fin v) (bits c) (max_val c) (min_val c)
                                          (signed c)) = false).
    { unfold scaled_value. destruct (int_vals (bits c) (signed c)) as [mx mn].
      apply fadd_not_finite, fmul_not_finite.
      unfold fsub, fneg, fadd. apply fdiv_zero_not_finite. lra. }
    split; [exact Hs |].
    unfold discretize, discretize_to_bits. cbv zeta.
    now apply astype_not_finite.
Qed.

Lemma C4_no_validation_witness :
  is_finite (decode 5 (bit_conf_demo 0)) = false /\
  discretize (Fin 3) (BitConf 8 1 1 false) = INT32_MIN.
Proof.
  split.
  - apply (proj1 (C4_no_validation (bit_conf_demo 0))). reflexivity.
  - apply (proj2 (C4_no_validation (BitConf 8 1 1 false)));
      [reflexivity | simpl; lia].
Defined.

(** C7, as stated, fails.  [wide_signed_conf] is valid and [1] is in its
    range.  The code of [1] is [2^31 - 1]; decoding it wraps around, and
    the decoded value is quantized to [INT32_MIN]. *)
Lemma C7_wide_signed_not_idempotent :
  valid_conf wide_signed_conf /\ in_range wide_signed_conf 1 /\
  discretize (Fin 1) wide_signed_conf = (2 ^ 31 - 1)%Z /\
  discretize (decode (discretize (Fin 1) wide_signed_conf) wide_signed_conf)
             wide_signed_conf = (- 2 ^ 31)%Z.
Proof.
  split; [split; [simpl; lia | reflexivity] |].
  split; [split; discriminate |].
  split; vm_compute; reflexivity.
Qed.

(** C7, amended.  Take [float64] as exact arithmetic.
    For a configuration with [1 <= bits <= 31] and
    [max_val > min_val] and a value [v] of the value range, quantizing the
    decoded code of [v] gives the code of [v] again. *)
Theorem C7_second_round_trip (c : bit_conf) (v : Q) :
  valid_conf c -> (bits c <= 31)%Z -> min_val c <= v <= max_val c ->
  discretize (decode (discretize (Fin v) c) c) c = discretize (Fin v) c.
Proof.
  intros Hv Hs Hr.
  assert (Hfit : in_int32 (rint (scaled_q v c)) = true)
    by (apply rint_scaled_fits; [exact Hv | now apply steps_code_range | exact Hr]).
  rewrite (discretize_no_overflow c Hv v Hfit).
  apply (discretize_decode c Hv _ Hfit).
  apply steps_no_wrap; [apply Hv | exact Hs | now apply rint_scaled_in_range].
Qed.

Lemma C7_second_round_trip_witness :
  discretize (decode (discretize (Fin (1 # 4)) twelve_byte_angle_config)
                     twelve_byte_angle_config) twelve_byte_angle_config
  = discretize (Fin (1 # 4)) twelve_byte_angle_config.
Proof.
  apply (C7_second_round_trip twelve_byte_angle_config (1 # 4)).
  - split; [simpl; lia | reflexivity].
  - simpl. lia.
  - split; discriminate.
Defined.

(** C8, as stated, fails.  In [wide_conf] the values [0 < 1] are both in
    range; [0] is coded [0], while the code of [1] does not fit [int32]
    and the cast yields [INT32_MIN], as it does on x86-64. *)
Lemma C8_wide_conf_not_monotone :
  valid_conf wide_conf /\
  min_val wide_conf <= 0 /\ 0 < 1 /\ 1 <= max_val wide_conf /\
  ~ (discretize (Fin 0) wide_conf <= discretize (Fin 1) wide_conf)%Z.
Proof.
  split; [split; [simpl; lia | reflexivity] |].
  split; [discriminate |]. split; [reflexivity |]. split; [discriminate |].
  assert (E0 : discretize (Fin 0) wide_conf = 0%Z) by (vm_compute; reflexivity).
  assert (E1 : discretize (Fin 1) wide_conf = INT32_MIN) by (vm_compute; reflexivity).
  rewrite E0, E1. unfold INT32_MIN. lia.
Qed.

(** C8, amended.  Take [float64] as exact arithmetic.
    For a configuration with [bits >= 1],
    [max_val > min_val] and a code range inside [int32] (at most 31 bits
    unsigned, 32 signed), and values
    [v1 < v2] of the value range, the code of [v1] is at most the code of
    [v2]. *)
Theorem C8_discretize_monotone (c : bit_conf) (v1 v2 : Q) :
  valid_conf c -> code_range_in_int32 c ->
  min_val c <= v1 -> v1 < v2 -> v2 <= max_val c ->
  (discretize (Fin v1) c <= discretize (Fin v2) c)%Z.
Proof.
  intros Hv Hf H1 H12 H2.
  rewrite !(discretize_no_overflow c Hv)
    by (apply (rint_scaled_fits c Hv _ Hf); split; lra).
  apply rint_mono, (scaled_q_mono c Hv). lra.
Qed.

Lemma C8_discretize_monotone_witness :
  (discretize (Fin (- (1 # 64))) twelve_byte_length_config
   <= discretize (Fin (1 # 4)) twelve_byte_length_config)%Z.
Proof.
  apply (C8_discretize_monotone twelve_byte_length_config).
  - split; [simpl; lia | reflexivity].
  - unfold code_range_in_int32. simpl. lia.
  - discriminate.
  - reflexivity.
  - discriminate.
Defined.

(** C9, as stated, fails.  [wide_conf] is valid and its [max_int] is
    [2^32 - 1], but the code of [max_val] is an [int32], so it is not
    [max_int]. *)
Lemma C9_wide_conf_max_not_max_int :
  valid_conf wide_conf /\
  max_int wide_conf = (2 ^ 32 - 1)%Z /\
  discretize (Fin (max_val wide_conf)) wide_conf <> max_int wide_conf.
Proof.
  split; [split; [simpl; lia | reflexivity] |].
  split; [reflexivity |].
  intros E.
  pose proof (discretize_int32 (Fin (max_val wide_conf)) wide_conf) as H.
  rewrite E in H. discriminate H.
Qed.

(** C9, amended.  Take [float64] as exact arithmetic.
    For a configuration with [bits >= 1],
    [max_val > min_val] and a code range inside [int32] (at most 31 bits
    unsigned, 32 signed), [min_val] is
    coded [min_int] ([0] unsigned, [-2^(bits-1)] signed) and [max_val] is
    coded [max_int] ([2^bits - 1] unsigned, [2^(bits-1) - 1] signed). *)
Theorem C9_end_points (c : bit_conf) :
  valid_conf c -> code_range_in_int32 c ->
  discretize (Fin (min_val c)) c
    = (if signed c then (- 2 ^ (bits c - 1))%Z else 0%Z) /\
  discretize (Fin (max_val c)) c
    = (if signed c then (2 ^ (bits c - 1) - 1)%Z else (2 ^ bits c - 1)%Z).
Proof.
  intros Hv Hf. pose proof Hv as [Hb Hlt].
  change (discretize (Fin (min_val c)) c = min_int c /\
          discretize (Fin (max_val c)) c = max_int c).
  rewrite (discretize_Fin c Hv (min_val c)), (discretize_Fin c Hv (max_val c)).
  rewrite (rint_of_Z _ _ (scaled_q_min c Hv)), (rint_of_Z _ _ (scaled_q_max c Hv)).
  split; apply astype_int32_fits;
    [now apply fits_min_int | now apply fits_max_int].
Qed.

Lemma C9_end_points_witness :
  discretize (Fin (min_val twelve_byte_length_config)) twelve_byte_length_config
    = (- 2 ^ (6 - 1))%Z /\
  discretize (Fin (max_val twelve_byte_length_config)) twelve_byte_length_config
    = (2 ^ (6 - 1) - 1)%Z.
Proof.
  apply (C9_end_points twelve_byte_length_config).
  - split; [simpl; lia | reflexivity].
  - unfold code_range_in_int32. simpl. lia.
Defined.

(** C10, as stated, fails.  In the signed [twelve_byte_length_config]
    the far outlier [15339169] gets a code that fits [int32], so the cast
    does not overflow, but in [decode_from_bits] the [int32] difference
    [code - min_int_val] wraps around and the decoded value is far more
    than half a step away from the input. *)
Lemma C10_far_outlier_wraps :
  valid_conf twelve_byte_length_config /\
  discretize (Fin 15339169) twelve_byte_length_config = 2147483635%Z /\
  in_int32 2147483635 = true /\
  in_int32 (2147483635 - min_int twelve_byte_length_config) = false /\
  within (decode (discretize (Fin 15339169) twelve_byte_length_config)
                 twelve_byte_length_config)
         15339169 (half_step twelve_byte_length_config) = false.
Proof.
  split; [split; [simpl; lia | reflexivity] |].
  split; [| split; [| split]]; vm_compute; reflexivity.
Qed.

(** C10, amended.  Take [float64] as exact arithmetic and a
    configuration with [1 <= bits <= 31] and [max_val > min_val] (with
    at most 31 bits no Python integer of the two calls leaves [int32]).
    For
    every finite value [v], in the value range or not, the code is the
    cast of the rounded scaled value: nothing is clamped and nothing is
    raised.  When the rounded scaled value fits [int32] and the [int32]
    difference [code - min_int_val] of [decode_from_bits] does not wrap
    around (as is always so for an unsigned configuration), the code is
    the rounded scaled value itself and the decoded code is within half a
    step of [v].  And a code can leave the declared code range: the
    unsigned [twelve_byte_angle_config] codes [-0.125] below its
    [min_int], [0]. *)
Theorem C10_no_range_guard :
  (forall (c : bit_conf) (v : Q),
      valid_conf c -> (bits c <= 31)%Z ->
      discretize (Fin v) c = astype_int32 (np_round (Fin (scaled_q v c))) /\
      (in_int32 (rint (scaled_q v c)) = true ->
       in_int32 (rint (scaled_q v c) - min_int c) = true ->
       discretize (Fin v) c = rint (scaled_q v c) /\
       exists d, decode (discretize (Fin v) c) c = Fin d /\
                 Qabs (d - v)
                 <= (max_val c - min_val c) / (2 * (2 ^ bits c - 1)))) /\
  (forall (c : bit_conf) (k : Z),
      signed c = false -> in_int32 k = true ->
      in_int32 (k - min_int c) = true) /\
  (min_int twelve_byte_angle_config = 0%Z /\
   - (1 # 8) < min_val twelve_byte_angle_config /\
   (discretize (Fin (- (1 # 8))) twelve_byte_angle_config < 0)%Z).
Proof.
  split; [| split].
  - intros c v Hv _. split; [now apply discretize_Fin |].
    intros Hfit Hsub. split.
    + now apply discretize_no_overflow.
    + apply within_spec. now apply roundtrip_within.
  - intros c k Hs Hk. unfold min_int. rewrite Hs. now rewrite Z.sub_0_r.
  - split; [reflexivity |]. split; reflexivity.
Qed.

Lemma C10_no_range_guard_witness :
  discretize (Fin (- (1 # 8))) twelve_byte_angle_config
    = rint (scaled_q (- (1 # 8)) twelve_byte_angle_config) /\
  exists d, decode (discretize (Fin (- (1 # 8))) twelve_byte_angle_config)
                   twelve_byte_angle_config = Fin d /\
            Qabs (d - - (1 # 8)) <= (np_pi - 0) / (2 * (2 ^ 12 - 1)).
Proof.
  assert (Hv : valid_conf twelve_byte_angle_config)
    by (split; [simpl; lia | reflexivity]).
  assert (Hb : (bits twelve_byte_angle_config <= 31)%Z) by (simpl; lia).
  apply (proj2 (proj1 C10_no_range_guard twelve_byte_angle_config
                  (- (1 # 8)) Hv Hb)).
  - vm_compute. reflexivity.
  - vm_compute. reflexivity.
Defined.

(** ** The naive compressor *)

(** C2, as stated, fails.  With [wide_conf] for the dihedrals, a residue
    whose three dihedrals are [1], inside the range [0, 1] of that
    configuration, comes back from the round trip more than half a step
    away. *)
Lemma C2_wide_dihedrals_break_bound :
  wide_dihedral_config !! "dihedrals" = Some wide_conf /\
  valid_conf wide_conf /\
  all_in_range wide_conf [(1, 1, 1)] /\
  exists yd,
    round_trip {| config := wide_dihedral_config |}
               ([], [], finite_arr [(1, 1, 1)]) = Ok ([], [], yd) /\
    all_within [(1, 1, 1)] yd (half_step wide_conf) = false.
Proof.
  split; [vm_compute; reflexivity |].
  split; [split; [simpl; lia | reflexivity] |].
  split.
  - constructor; [| constructor].
    unfold in_range3, in_range. repeat split; discriminate.
  - eexists. split; vm_compute; reflexivity.
Qed.

(** C2, amended.  Take [float64] as exact arithmetic.
    Let the three configurations have [1 <= bits <= 31]
    and [max_val > min_val].  For finite
    coordinates whose bond-length and bond-angle deviations from
    [BACKBONE_BOND_LENGTHS] and [BACKBONE_ANGLES] and whose dihedrals lie
    in the three value ranges, [compress] quantizes those deviations and
    the dihedrals themselves, and [decompress] of the result returns
    arrays of the same shape, each entry finite and within half a step of
    its class of the entry it came from. *)
Theorem C2_naive_round_trip (self : Compressor) (lc ac dc : bit_conf)
    (bl ba dh : ndarray Q) :
  config self !! "lengths" = Some lc ->
  config self !! "angles" = Some ac ->
  config self !! "dihedrals" = Some dc ->
  valid_conf lc -> valid_conf ac -> valid_conf dc ->
  (bits lc <= 31)%Z -> (bits ac <= 31)%Z -> (bits dc <= 31)%Z ->
  all_in_range lc (deviations bl BACKBONE_BOND_LENGTHS) ->
  all_in_range ac (deviations ba BACKBONE_ANGLES) ->
  all_in_range dc dh ->
  exists cc yl ya yd,
    NaiveCompressor.compress self (finite_arr bl, finite_arr ba, finite_arr dh)
      = Ok cc /\
    cc = (discretize_arr (finite_arr (deviations bl BACKBONE_BOND_LENGTHS)) lc,
          discretize_arr (finite_arr (deviations ba BACKBONE_ANGLES)) ac,
          discretize_arr (finite_arr dh) dc) /\
    NaiveCompressor.decompress self cc = Ok (yl, ya, yd) /\
    all_within bl yl (half_step lc) = true /\
    all_within ba ya (half_step ac) = true /\
    all_within dh yd (half_step dc) = true.
Proof.
  intros Kl Ka Kd Vl Va Vd Fl Fa Fd Rl Ra Rd.
  eexists _, _, _, _. split; [| split; [reflexivity | split]].
  - unfold NaiveCompressor.compress.
    rewrite (getitem_Some _ _ _ Kl), (getitem_Some _ _ _ Ka), (getitem_Some _ _ _ Kd).
    cbn [bind]. now rewrite !sub_row_finite.
  - unfold NaiveCompressor.decompress.
    rewrite (getitem_Some _ _ _ Kl), (getitem_Some _ _ _ Ka), (getitem_Some _ _ _ Kd).
    reflexivity.
  - split; [| split].
    + now apply rows_deviation.
    + now apply rows_deviation.
    + now apply rows_direct.
Qed.

Lemma C2_naive_round_trip_witness :
  exists cc yl ya yd,
    NaiveCompressor.compress {| config := twelve_byte_config |}
      (finite_arr [(11 # 8, 3 # 2, 25 # 16)],
       finite_arr [(9 # 8, 1, 5 # 4)],
       finite_arr [(3, - 3, 0)])
      = Ok cc /\
    cc = (discretize_arr
            (finite_arr (deviations [(11 # 8, 3 # 2, 25 # 16)]
                                    BACKBONE_BOND_LENGTHS))
            twelve_byte_length_config,
          discretize_arr
            (finite_arr (deviations [(9 # 8, 1, 5 # 4)] BACKBONE_ANGLES))
            twelve_byte_angle_config,
          discretize_arr (finite_arr [(3, - 3, 0)]) twelve_byte_torsion_config) /\
    NaiveCompressor.decompress {| config := twelve_byte_config |} cc
      = Ok (yl, ya, yd) /\
    all_within [(11 # 8, 3 # 2, 25 # 16)] yl
               (half_step twelve_byte_length_config) = true /\
    all_within [(9 # 8, 1, 5 # 4)] ya
               (half_step twelve_byte_angle_config) = true /\
    all_within [(3, - 3, 0)] yd (half_step twelve_byte_torsion_config) = true.
Proof.
  apply (C2_naive_round_trip {| config := twelve_byte_config |}).
  - vm_compute. reflexivity.
  - vm_compute. reflexivity.
  - vm_compute. reflexivity.
  - split; [simpl; lia | reflexivity].
  - split; [simpl; lia | reflexivity].
  - split; [simpl; lia | reflexivity].
  - simpl. lia.
  - simpl. lia.
  - simpl. lia.
  - constructor; [| constructor].
    unfold in_range3, in_range. cbn [zip3]. repeat split; discriminate.
  - constructor; [| constructor].
    unfold in_range3, in_range. cbn [zip3]. repeat split; discriminate.
  - constructor; [| constructor].
    unfold in_range3, in_range. repeat split; discriminate.
Defined.

(** ** Errors of the compressor *)

(** C5, as stated, fails.  A compressor is built from a configuration
    without the key "angles"; the missing key shows only when [compress]
    is called, as a [KeyError]. *)
Lemma C5_missing_key_accepted :
  no_angles_config !! "angles" = None /\
  NaiveCompressor.init no_angles_config = Ok {| config := no_angles_config |} /\
  NaiveCompressor.compress {| config := no_angles_config |} ([], [], [])
    = Raise (KeyError "angles").
Proof.
  split; [vm_compute; reflexivity |].
  split; [reflexivity | vm_compute; reflexivity].
Qed.

(** C5, amended.  A [NaiveCompressor] is built from any configuration
    mapping, whatever keys it has.  When one of "lengths", "angles",
    "dihedrals" is missing, the error comes at use.  [compress] reads the
    three keys before it computes anything and fails with the [KeyError]
    of the first missing key, in that order.  [decompress] reads each
    key just before it decodes its class; it fails with the same
    [KeyError] when the configurations present have [0 <= bits <= 31],
    so that decoding the classes before the missing key raises nothing
    (the [OverflowError] of other bit counts is not in this model). *)
Theorem C5_key_error_at_use (cfg : gmap string bit_conf) :
  NaiveCompressor.init cfg = Ok {| config := cfg |} /\
  forall key0 : string,
    In key0 required_keys -> cfg !! key0 = None ->
    exists key,
      first_missing cfg = Some key /\ In key required_keys /\
      cfg !! key = None /\
      (forall ic : internal_coords,
          NaiveCompressor.compress {| config := cfg |} ic
          = Raise (KeyError key)) /\
      ((forall k c, In k required_keys -> cfg !! k = Some c ->
                    (0 <= bits c <= 31)%Z) ->
       forall cc : compressed_coords,
         NaiveCompressor.decompress {| config := cfg |} cc
         = Raise (KeyError key)).
Proof.
  split; [reflexivity |].
  intros key0 Hin Hnone.
  unfold first_missing, NaiveCompressor.compress, NaiveCompressor.decompress,
    getitem.
  cbn [config].
  destruct (cfg !! "lengths") as [lc |] eqn:El.
  2: { exists "lengths"%string. split; [reflexivity |].
       split; [simpl; tauto |]. split; [exact El |].
       split; [intros [[bl ba] dh] | intros _ [[c0 c1] c2]]; reflexivity. }
  destruct (cfg !! "angles") as [ac |] eqn:Ea.
  2: { exists "angles"%string. split; [reflexivity |].
       split; [simpl; tauto |]. split; [exact Ea |].
       split; [intros [[bl ba] dh] | intros _ [[c0 c1] c2]]; reflexivity. }
  destruct (cfg !! "dihedrals") as [dc |] eqn:Ed.
  2: { exists "dihedrals"%string. split; [reflexivity |].
       split; [simpl; tauto |]. split; [exact Ed |].
       split; [intros [[bl ba] dh] | intros _ [[c0 c1] c2]]; reflexivity. }
  exfalso. simpl in Hin.
  destruct Hin as [<- | [<- | [<- | []]]]; congruence.
Qed.

Lemma C5_key_error_at_use_witness :
  exists key,
    first_missing no_angles_config = Some key /\ In key required_keys /\
    no_angles_config !! key = None /\
    (forall ic : internal_coords,
        NaiveCompressor.compress {| config := no_angles_config |} ic
        = Raise (KeyError key)) /\
    ((forall k c, In k required_keys -> no_angles_config !! k = Some c ->
                  (0 <= bits c <= 31)%Z) ->
     forall cc : compressed_coords,
       NaiveCompressor.decompress {| config := no_angles_config |} cc
       = Raise (KeyError key)).
Proof.
  apply (proj2 (C5_key_error_at_use no_angles_config) "angles"%string).
  - simpl. tauto.
  - vm_compute. reflexivity.
Defined.

(** C6, as stated, fails.  [compress] returns a result for arrays of one,
    no and two residues, and [decompress] returns one for the codes. *)
Lemma C6_ragged_input_accepted :
  exists ql qd yl yd,
    NaiveCompressor.compress {| config := twelve_byte_config |} ragged_coords
      = Ok (ql, [], qd) /\
    NaiveCompressor.decompress {| config := twelve_byte_config |} (ql, [], qd)
      = Ok (yl, [], yd) /\
    length ql = 1%nat /\ length qd = 2%nat /\
    length yl = 1%nat /\ length yd = 2%nat.
Proof.
  eexists _, _, _, _.
  split; [vm_compute; reflexivity |].
  split; [vm_compute; reflexivity |].
  repeat split.
Qed.

(** C6, amended.  With the three keys in the configuration and
    configurations with [0 <= bits <= 31] (other bit counts can raise an
    [OverflowError] that this model does not have), [compress] and
    [decompress] return a result for arrays of any residue counts, equal
    or not: the three arrays are treated one by one and each result has
    the residue count of its own input. *)
Theorem C6_no_shape_check (self : Compressor) (lc ac dc : bit_conf) :
  config self !! "lengths" = Some lc ->
  config self !! "angles" = Some ac ->
  config self !! "dihedrals" = Some dc ->
  (0 <= bits lc <= 31)%Z -> (0 <= bits ac <= 31)%Z ->
  (0 <= bits dc <= 31)%Z ->
  (forall bl ba dh : ndarray npfloat,
      exists ql qa qd,
        NaiveCompressor.compress self (bl, ba, dh) = Ok (ql, qa, qd) /\
        length ql = length bl /\ length qa = length ba /\
        length qd = length dh) /\
  (forall c0 c1 c2 : ndarray Z,
      exists yl ya yd,
        NaiveCompressor.decompress self (c0, c1, c2) = Ok (yl, ya, yd) /\
        length yl = length c0 /\ length ya = length c1 /\
        length yd = length c2).
Proof.
  intros Kl Ka Kd _ _ _. split.
  - intros bl ba dh. eexists _, _, _. split.
    + unfold NaiveCompressor.compress.
      rewrite (getitem_Some _ _ _ Kl), (getitem_Some _ _ _ Ka),
        (getitem_Some _ _ _ Kd).
      reflexivity.
    + unfold discretize_arr, sub_row. now rewrite !length_map.
  - intros c0 c1 c2. eexists _, _, _. split.
    + unfold NaiveCompressor.decompress.
      rewrite (getitem_Some _ _ _ Kl), (getitem_Some _ _ _ Ka),
        (getitem_Some _ _ _ Kd).
      reflexivity.
    + unfold decode_arr, add_row. now rewrite !length_map.
Qed.

Lemma C6_no_shape_check_witness :
  exists ql qa qd,
    NaiveCompressor.compress {| config := twelve_byte_config |} ragged_coords
      = Ok (ql, qa, qd) /\
    length ql = 1%nat /\ length qa = 0%nat /\ length qd = 2%nat.
Proof.
  apply (proj1 (C6_no_shape_check {| config := twelve_byte_config |}
                  twelve_byte_length_config twelve_byte_angle_config
                  twelve_byte_torsion_config
                  ltac:(vm_compute; reflexivity)
                  ltac:(vm_compute; reflexivity)
                  ltac:(vm_compute; reflexivity)
                  ltac:(simpl; lia) ltac:(simpl; lia) ltac:(simpl; lia))).
Defined.

(** ** More on rounding *)

Section RoundingMore.

Lemma Qfloor_unique (q : Q) (f : Z) :
  inject_Z f <= q -> q < inject_Z (f + 1) -> Qfloor q = f.
Proof.
  intros Hlo Hhi.
  assert (H1 : (f <= Qfloor q)%Z)
    by (rewrite <- (Qfloor_Z f); now apply Qfloor_resp_le).
  assert (H2 : (Qfloor q < f + 1)%Z).
  { rewrite Zlt_Qlt. apply Qle_lt_trans with q; [apply Qfloor_le | exact Hhi]. }
  lia.
Qed.

Lemma Qfloor_shift (q : Q) (n : Z) :
  Qfloor (q + inject_Z n) = (Qfloor q + n)%Z.
Proof.
  destruct (Qfloor_frac q) as [Hlo Hhi]. apply Qfloor_unique.
  - rewrite inject_Z_plus. lra.
  - rewrite !inject_Z_plus. change (inject_Z 1) with 1. lra.
Qed.

(** Rounding commutes with a shift by an even integer. *)
Lemma rint_shift_even (q : Q) (n : Z) :
  Z.even n = true -> rint (q + inject_Z n) = (rint q + n)%Z.
Proof.
  intros Hn. unfold rint. cbv zeta. rewrite Qfloor_shift.
  assert (Hc : Qcompare (q + inject_Z n - inject_Z (Qfloor q + n)) (1 # 2)
               = Qcompare (q - inject_Z (Qfloor q)) (1 # 2)).
  { apply Qcompare_comp; [rewrite inject_Z_plus; ring | reflexivity]. }
  rewrite Hc, Z.even_add, Hn. clear Hc.
  destruct (Qcompare _ _); [destruct (Z.even (Qfloor q)); simpl | |]; lia.
Qed.

(** A value less than one half away from an integer rounds to it. *)
Lemma rint_near (q : Q) (k : Z) :
  Qabs (q - inject_Z k) < 1 # 2 -> rint q = k.
Proof.
  intros H. apply Qabs_Qlt_condition in H. destruct H as [H1 H2].
  destruct (Qlt_le_dec q (inject_Z k)) as [Hlt | Hge].
  - assert (Hk : inject_Z (k - 1) == inject_Z k - 1).
    { unfold Z.sub. rewrite inject_Z_plus, inject_Z_opp. reflexivity. }
    assert (Hf : Qfloor q = (k - 1)%Z).
    { apply Qfloor_unique.
      - rewrite Hk. lra.
      - replace (k - 1 + 1)%Z with k by lia. exact Hlt. }
    unfold rint. rewrite Hf.
    destruct (Qcompare_spec (q - inject_Z (k - 1)) (1 # 2)) as [He | Hl | Hg];
      rewrite Hk in *; [exfalso; lra | exfalso; lra | lia].
  - assert (Hf : Qfloor q = k).
    { apply Qfloor_unique; [exact Hge |].
      rewrite inject_Z_plus. change (inject_Z 1) with 1. lra. }
    unfold rint. rewrite Hf.
    destruct (Qcompare_spec (q - inject_Z k) (1 # 2)) as [He | Hl | Hg];
      [exfalso; lra | reflexivity | exfalso; lra].
Qed.

End RoundingMore.

(** ** The quantizer on the code grid *)

Section Grid.

Variable c : bit_conf.
Hypothesis Hvalid : valid_conf c.
Hypothesis Hsteps : steps_in_int32 c.

Lemma code_fits (k : Z) : code_in_range c k -> in_int32 k = true.
Proof.
  intros [H1 H2]. destruct Hvalid as [Hb _].
  pose proof (fits_min_int c Hb (steps_code_range c Hsteps)) as H3.
  pose proof (fits_max_int c Hb (steps_code_range c Hsteps)) as H4.
  rewrite in_int32_iff in *. lia.
Qed.

Lemma code_no_wrap (k : Z) :
  code_in_range c k -> in_int32 (k - min_int c) = true.
Proof. intros H. apply steps_no_wrap; [apply Hvalid | exact Hsteps | exact H]. Qed.

Lemma decode_code (k : Z) :
  code_in_range c k -> decode k c = Fin (decoded_q k c).
Proof. intros H. now apply decode_Fin, code_no_wrap. Qed.

(** The size of one quantization step. *)
Lemma step_pos : 0 < (max_val c - min_val c) / inject_Z (max_int c - min_int c).
Proof.
  apply Qlt_shift_div_l; [now apply steps_Q_pos |].
  pose proof (width_pos c Hvalid). lra.
Qed.

Lemma step_twice_half_step :
  (max_val c - min_val c) / inject_Z (max_int c - min_int c) == 2 * half_step c.
Proof.
  rewrite (half_step_steps c Hvalid). field.
  pose proof (steps_Q_pos c Hvalid). intros E. lra.
Qed.

Lemma decoded_q_diff (k k' : Z) :
  decoded_q k' c - decoded_q k c
  == inject_Z (k' - k)
     * ((max_val c - min_val c) / inject_Z (max_int c - min_int c)).
Proof.
  unfold decoded_q. pose proof (steps_Q_pos c Hvalid) as H.
  set (R := inject_Z (max_int c - min_int c)) in *. clearbody R.
  unfold Z.sub. rewrite !inject_Z_plus, !inject_Z_opp.
  field. intros E. lra.
Qed.

Lemma decoded_q_min : decoded_q (min_int c) c == min_val c.
Proof.
  unfold decoded_q. rewrite Z.sub_diag. pose proof (steps_Q_pos c Hvalid).
  change (inject_Z 0) with 0. field. intros E. lra.
Qed.

Lemma decoded_q_max : decoded_q (max_int c) c == max_val c.
Proof.
  unfold decoded_q. pose proof (steps_Q_pos c Hvalid). field. intros E. lra.
Qed.

Lemma decoded_q_mono (k k' : Z) :
  (k <= k')%Z -> decoded_q k c <= decoded_q k' c.
Proof.
  intros H. pose proof (decoded_q_diff k k') as E. pose proof step_pos as Hs.
  assert (H0 : 0 <= inject_Z (k' - k))
    by (change 0 with (inject_Z 0); rewrite <- Zle_Qle; lia).
  pose proof (Qmult_le_0_compat _ _ H0 (Qlt_le_weak _ _ Hs)) as Hm.
  lra.
Qed.

Lemma decoded_q_in_range (k : Z) :
  code_in_range c k -> in_range c (decoded_q k c).
Proof.
  intros [H1 H2]. split.
  - rewrite <- decoded_q_min. now apply decoded_q_mono.
  - rewrite <- decoded_q_max. now apply decoded_q_mono.
Qed.

(** The scaled value of [v], seen from the level of the code [k]. *)
Lemma scaled_from_level (k : Z) (v : Q) :
  scaled_q v c - inject_Z k
  == (v - decoded_q k c)
     * (inject_Z (max_int c - min_int c) / (max_val c - min_val c)).
Proof.
  unfold scaled_q, decoded_q.
  pose proof (width_pos c Hvalid). pose proof (steps_Q_pos c Hvalid).
  set (R := inject_Z (max_int c - min_int c)) in *. clearbody R.
  unfold Z.sub. rewrite inject_Z_plus, inject_Z_opp.
  field. split; intros E; lra.
Qed.

End Grid.

(** X1.  Take [float64] as exact arithmetic.
    For a configuration with [bits >= 1], [max_val > min_val] and a
    code range inside [int32], the code of a value of the value range
    lies in the declared code range [min_int .. max_int]: it needs no
    more than [bits] bits. *)
Theorem X1_code_in_declared_range (c : bit_conf) (v : Q) :
  valid_conf c -> code_range_in_int32 c -> min_val c <= v <= max_val c ->
  (min_int c <= discretize (Fin v) c <= max_int c)%Z.
Proof.
  intros Hv Hf Hr.
  rewrite (discretize_no_overflow c Hv v (rint_scaled_fits c Hv v Hf Hr)).
  now apply rint_scaled_in_range.
Qed.

Lemma X1_code_in_declared_range_witness :
  (min_int twelve_byte_torsion_config
   <= discretize (Fin (- 3)) twelve_byte_torsion_config
   <= max_int twelve_byte_torsion_config)%Z.
Proof.
  apply (X1_code_in_declared_range twelve_byte_torsion_config (- 3)).
  - split; [simpl; lia | reflexivity].
  - unfold code_range_in_int32. simpl. lia.
  - split; discriminate.
Defined.

(** X2.  Take [float64] as exact arithmetic.
    For [1 <= bits <= 31] and [max_val > min_val],
    [decode_from_bits] maps every code of the code range to a finite
    value of the value range, [min_int] exactly to [min_val] and
    [max_int] exactly to [max_val]. *)
Theorem X2_decode_into_value_range (c : bit_conf) (k : Z) :
  valid_conf c -> (bits c <= 31)%Z -> (min_int c <= k <= max_int c)%Z ->
  (exists d, decode k c = Fin d /\ min_val c <= d <= max_val c) /\
  (exists d, decode (min_int c) c = Fin d /\ d == min_val c) /\
  (exists d, decode (max_int c) c = Fin d /\ d == max_val c).
Proof.
  intros Hv Hs Hk.
  assert (Hlo : code_in_range c (min_int c)) by (unfold code_in_range; lia).
  assert (Hhi : code_in_range c (max_int c)) by (unfold code_in_range; lia).
  split; [| split].
  - exists (decoded_q k c). split; [now apply decode_code |].
    now apply decoded_q_in_range.
  - exists (decoded_q (min_int c) c). split; [now apply decode_code |].
    now apply decoded_q_min.
  - exists (decoded_q (max_int c) c). split; [now apply decode_code |].
    now apply decoded_q_max.
Qed.

Lemma X2_decode_into_value_range_witness :
  (exists d, decode 100 twelve_byte_angle_config = Fin d /\
             0 <= d <= np_pi) /\
  (exists d, decode 0 twelve_byte_angle_config = Fin d /\ d == 0) /\
  (exists d, decode 4095 twelve_byte_angle_config = Fin d /\ d == np_pi).
Proof.
  apply (X2_decode_into_value_range twelve_byte_angle_config 100).
  - split; [simpl; lia | reflexivity].
  - simpl. lia.
  - split; discriminate.
Defined.

(** X3.  Take [float64] as exact arithmetic.
    For [1 <= bits <= 31] and [max_val > min_val], quantizing the
    decoded value of a code of the code range gives the code back:
    [discretize_to_bits] undoes [decode_from_bits] exactly. *)
Theorem X3_discretize_undoes_decode (c : bit_conf) (k : Z) :
  valid_conf c -> (bits c <= 31)%Z -> (min_int c <= k <= max_int c)%Z ->
  discretize (decode k c) c = k.
Proof.
  intros Hv Hs Hk. apply (discretize_decode c Hv).
  - now apply (code_fits c Hv Hs).
  - now apply (code_no_wrap c Hv Hs).
Qed.

Lemma X3_discretize_undoes_decode_witness :
  discretize (decode (- 17) twelve_byte_length_config) twelve_byte_length_config
  = (- 17)%Z.
Proof.
  apply (X3_discretize_undoes_decode twelve_byte_length_config (- 17)).
  - split; [simpl; lia | reflexivity].
  - simpl. lia.
  - split; discriminate.
Defined.

(** X4.  Take [float64] as exact arithmetic.
    For [1 <= bits <= 31] and [max_val > min_val],
    [decode_from_bits] is strictly increasing on the code range, with a
    constant step: codes [k < k'] decode to values [d < d'] that are
    [k' - k] quantization steps, of twice the half step each, apart.
    Distinct codes never decode to the same value. *)
Theorem X4_decode_evenly_spaced (c : bit_conf) (k k' : Z) :
  valid_conf c -> (bits c <= 31)%Z ->
  (min_int c <= k)%Z -> (k < k')%Z -> (k' <= max_int c)%Z ->
  exists d d', decode k c = Fin d /\ decode k' c = Fin d' /\
               d < d' /\
               d' - d == inject_Z (k' - k) * (2 * half_step c).
Proof.
  intros Hv Hs H1 H2 H3.
  exists (decoded_q k c), (decoded_q k' c).
  split; [apply (decode_code c Hv Hs); unfold code_in_range; lia |].
  split; [apply (decode_code c Hv Hs); unfold code_in_range; lia |].
  pose proof (decoded_q_diff c Hv k k') as E.
  pose proof (step_pos c Hv) as Hp.
  rewrite (step_twice_half_step c Hv) in E, Hp.
  split; [| exact E].
  assert (Hd : 0 < inject_Z (k' - k))
    by (change 0 with (inject_Z 0); rewrite <- Zlt_Qlt; lia).
  pose proof (Qmult_lt_0_compat _ _ Hd Hp) as Hm. lra.
Qed.

Lemma X4_decode_evenly_spaced_witness :
  exists d d', decode 10 twelve_byte_torsion_config = Fin d /\
               decode 13 twelve_byte_torsion_config = Fin d' /\
               d < d' /\
               d' - d == inject_Z (13 - 10)
                         * (2 * half_step twelve_byte_torsion_config).
Proof.
  apply (X4_decode_evenly_spaced twelve_byte_torsion_config 10 13).
  - split; [simpl; lia | reflexivity].
  - simpl. lia.
  - discriminate.
  - reflexivity.
  - discriminate.
Defined.

(** X5.  Take [float64] as exact arithmetic.
    For [1 <= bits <= 31] and [max_val > min_val], every value less
    than half a step away from the decoded value of a code [k] of the
    code range is quantized to [k]: the cell of a code is the open
    interval of radius half a step around its level. *)
Theorem X5_cell_of_a_code (c : bit_conf) (k : Z) (v d : Q) :
  valid_conf c -> (bits c <= 31)%Z -> (min_int c <= k <= max_int c)%Z ->
  decode k c = Fin d -> Qabs (v - d) < half_step c ->
  discretize (Fin v) c = k.
Proof.
  intros Hv Hs Hk Hd Hclose.
  rewrite (decode_code c Hv Hs k Hk) in Hd. injection Hd as <-.
  assert (Hr : rint (scaled_q v c) = k).
  { apply rint_near. rewrite (scaled_from_level c Hv k v).
    pose proof (step_pos c Hv) as Hp.
    pose proof (step_twice_half_step c Hv) as E.
    pose proof (width_pos c Hv) as Hw. pose proof (steps_Q_pos c Hv) as Hq.
    apply Qabs_Qlt_condition in Hclose. destruct Hclose as [H1 H2].
    set (a := (max_val c - min_val c) / inject_Z (max_int c - min_int c)) in *.
    assert (Ei : inject_Z (max_int c - min_int c) / (max_val c - min_val c) == / a).
    { unfold a. field. split; intros E'; lra. }
    rewrite Ei. set (e := v - decoded_q k c) in *. clearbody a e.
    assert (Hia : 0 < / a) by now apply Qinv_lt_0_compat.
    assert (Eh : half_step c == a * (1 # 2)) by lra.
    assert (Hh : half_step c * / a == 1 # 2).
    { rewrite Eh. field. intros E'; lra. }
    assert (Hn : (- half_step c) * / a == - (1 # 2)).
    { rewrite Eh. field. intros E'; lra. }
    apply Qabs_Qlt_condition. rewrite <- Hh at 2. rewrite <- Hn. split.
    - apply Qmult_lt_compat_r; assumption.
    - apply Qmult_lt_compat_r; assumption. }
  rewrite (discretize_no_overflow c Hv v); [exact Hr |].
  rewrite Hr. now apply (code_fits c Hv Hs).
Qed.

Lemma X5_cell_of_a_code_witness :
  discretize (Fin (1 # 1024)) twelve_byte_length_config = (- 25)%Z.
Proof.
  apply (X5_cell_of_a_code twelve_byte_length_config (- 25) (1 # 1024)
           (decoded_q (- 25) twelve_byte_length_config)).
  - split; [simpl; lia | reflexivity].
  - simpl. lia.
  - split; discriminate.
  - vm_compute. reflexivity.
  - vm_compute. reflexivity.
Defined.

Lemma steps_ge_1 (c : bit_conf) :
  valid_conf c -> 1 <= inject_Z (max_int c - min_int c).
Proof.
  intros [Hb _]. change 1 with (inject_Z 1). rewrite <- Zle_Qle.
  pose proof (steps_pos c Hb). lia.
Qed.

Lemma half_step_pos (c : bit_conf) : valid_conf c -> 0 < half_step c.
Proof.
  intros Hv. pose proof (step_pos c Hv) as Hp.
  rewrite (step_twice_half_step c Hv) in Hp. lra.
Qed.

(** A step is at most the width of the value range. *)
Lemma step_le_width (c : bit_conf) :
  valid_conf c -> 2 * half_step c <= max_val c - min_val c.
Proof.
  intros Hv. rewrite <- (step_twice_half_step c Hv).
  pose proof (steps_ge_1 c Hv) as H1. pose proof (width_pos c Hv) as Hw.
  apply Qle_shift_div_r; [lra |].
  assert (H : (max_val c - min_val c) * 1
              <= (max_val c - min_val c) * inject_Z (max_int c - min_int c)).
  { rewrite !(Qmult_comm (max_val c - min_val c)).
    apply Qmult_le_compat_r; [exact H1 | lra]. }
  lra.
Qed.

Lemma scaled_q_first_tie (c : bit_conf) :
  valid_conf c ->
  scaled_q (min_val c + half_step c) c == inject_Z (min_int c) + (1 # 2).
Proof.
  intros Hv. unfold scaled_q. rewrite (half_step_steps c Hv).
  pose proof (width_pos c Hv). pose proof (steps_Q_pos c Hv).
  field. split; intros E; lra.
Qed.

(** X6.  Take [float64] as exact arithmetic.
    The half-step bound is attained.  For [1 <= bits <= 31] and
    [max_val > min_val], the value half a step above [min_val] lies in
    the value range and comes back from the round trip exactly half a
    step away. *)
Theorem X6_half_step_is_attained (c : bit_conf) :
  valid_conf c -> (bits c <= 31)%Z ->
  min_val c <= min_val c + half_step c <= max_val c /\
  exists d,
    decode (discretize (Fin (min_val c + half_step c)) c) c = Fin d /\
    Qabs (d - (min_val c + half_step c)) == half_step c.
Proof.
  intros Hv Hs.
  pose proof (half_step_pos c Hv) as Hh. pose proof (step_le_width c Hv) as Hw.
  pose proof (scaled_q_first_tie c Hv) as Es.
  pose proof (steps_pos c (proj1 Hv)) as Hsteps.
  split; [split; lra |].
  set (v := min_val c + half_step c) in *.
  assert (Hk : code_in_range c (rint (scaled_q v c))).
  { rewrite (rint_tie _ _ Es). unfold code_in_range.
    destruct (Z.even (min_int c)); lia. }
  rewrite (discretize_no_overflow c Hv v (code_fits c Hv Hs _ Hk)).
  exists (decoded_q (rint (scaled_q v c)) c).
  split; [now apply decode_code |].
  rewrite (decoded_error c Hv), (step_twice_half_step c Hv).
  rewrite (rint_tie _ _ Es), Es.
  destruct (Z.even (min_int c)).
  - setoid_replace ((inject_Z (min_int c) - (inject_Z (min_int c) + (1 # 2)))
                    * (2 * half_step c)) with (- half_step c)
      using relation Qeq by ring.
    rewrite Qabs_opp. apply Qabs_pos. lra.
  - rewrite inject_Z_plus. change (inject_Z 1) with 1.
    setoid_replace ((inject_Z (min_int c) + 1 - (inject_Z (min_int c) + (1 # 2)))
                    * (2 * half_step c)) with (half_step c)
      using relation Qeq by ring.
    apply Qabs_pos. lra.
Qed.

Lemma X6_half_step_is_attained_witness :
  min_val unit_conf <= min_val unit_conf + half_step unit_conf
    <= max_val unit_conf /\
  exists d,
    decode (discretize (Fin (min_val unit_conf + half_step unit_conf)) unit_conf)
           unit_conf = Fin d /\
    Qabs (d - (min_val unit_conf + half_step unit_conf)) == half_step unit_conf.
Proof.
  apply (X6_half_step_is_attained unit_conf).
  - split; [simpl; lia | reflexivity].
  - simpl. lia.
Defined.

(** X7.  Take [float64] as exact arithmetic.
    With one bit ([bits = 1], [max_val > min_val]) a value of the
    value range comes back from the round trip as one of the two ends of
    the range, [min_val] or [max_val]. *)
Theorem X7_one_bit_collapses (c : bit_conf) (v : Q) :
  bits c = 1%Z -> min_val c < max_val c -> min_val c <= v <= max_val c ->
  exists d, decode (discretize (Fin v) c) c = Fin d /\
            (d == min_val c \/ d == max_val c).
Proof.
  intros Hb Hlt Hr.
  assert (Hv : valid_conf c) by (split; [lia | exact Hlt]).
  assert (Hs : steps_in_int32 c) by (unfold steps_in_int32; lia).
  pose proof (rint_scaled_in_range c Hv v Hr) as Hk.
  pose proof (steps_Z c (proj1 Hv)) as E. rewrite Hb in E.
  change (2 ^ 1 - 1)%Z with 1%Z in E.
  rewrite (discretize_no_overflow c Hv v (code_fits c Hv Hs _ Hk)).
  exists (decoded_q (rint (scaled_q v c)) c).
  split; [now apply decode_code |].
  assert (Hcase : rint (scaled_q v c) = min_int c \/ rint (scaled_q v c) = max_int c)
    by lia.
  destruct Hcase as [-> | ->];
    [left; now apply decoded_q_min | right; now apply decoded_q_max].
Qed.

Lemma X7_one_bit_collapses_witness :
  exists d, decode (discretize (Fin (1059459 # 1000)) (bit_conf_demo 1))
                   (bit_conf_demo 1) = Fin d /\
            (d == 0 \/ d == 2048).
Proof.
  apply (X7_one_bit_collapses (bit_conf_demo 1) (1059459 # 1000)).
  - reflexivity.
  - reflexivity.
  - split; discriminate.
Defined.

(** ** Signed and unsigned codes *)

Section Signedness.

Variable c : bit_conf.
Hypothesis Hbits : (2 <= bits c <= 31)%Z.
Hypothesis Hwidth : min_val c < max_val c.

Lemma with_signed_valid (s : bool) : valid_conf (with_signed s c).
Proof. split; simpl; [lia | exact Hwidth]. Qed.

Lemma with_signed_steps (s : bool) :
  (max_int (with_signed s c) - min_int (with_signed s c) = 2 ^ bits c - 1)%Z.
Proof. apply (steps_Z (with_signed s c)). simpl. lia. Qed.

Lemma signed_min_int_even : Z.even (min_int (with_signed true c)) = true.
Proof.
  unfold min_int. simpl. rewrite Z.even_opp, Z.even_pow by lia. reflexivity.
Qed.

(** The signed scaled value is the unsigned one, shifted by [min_int]. *)
Lemma scaled_q_signed (v : Q) :
  scaled_q v (with_signed true c)
  == scaled_q v (with_signed false c) + inject_Z (min_int (with_signed true c)).
Proof.
  unfold scaled_q. rewrite !with_signed_steps.
  change (min_int (with_signed false c)) with 0%Z.
  change (inject_Z 0) with 0. simpl max_val. simpl min_val. ring.
Qed.

Lemma rint_scaled_signed (v : Q) :
  rint (scaled_q v (with_signed true c))
  = (rint (scaled_q v (with_signed false c)) + min_int (with_signed true c))%Z.
Proof.
  rewrite (rint_comp _ _ (scaled_q_signed v)).
  apply rint_shift_even, signed_min_int_even.
Qed.

Lemma decoded_q_signed (k : Z) :
  decoded_q (k + min_int (with_signed true c)) (with_signed true c)
  = decoded_q k (with_signed false c).
Proof.
  unfold decoded_q. rewrite !with_signed_steps.
  change (min_int (with_signed false c)) with 0%Z.
  replace (k + min_int (with_signed true c) - min_int (with_signed true c))%Z
    with k by lia.
  now rewrite Z.sub_0_r.
Qed.

End Signedness.

(** X8.  Take [float64] as exact arithmetic.
    For [2 <= bits <= 31] and [max_val > min_val], the keyword
    [signed] changes the codes but not the decoded values: the signed
    code of a value of the value range is its unsigned code minus
    [2^(bits-1)], and both decode to the same value. *)
Theorem X8_signedness_shifts_codes (c : bit_conf) (v : Q) :
  (2 <= bits c <= 31)%Z -> min_val c < max_val c ->
  min_val c <= v <= max_val c ->
  discretize (Fin v) (with_signed true c)
    = (discretize (Fin v) (with_signed false c) - 2 ^ (bits c - 1))%Z /\
  exists d d',
    decode (discretize (Fin v) (with_signed true c)) (with_signed true c) = Fin d /\
    decode (discretize (Fin v) (with_signed false c)) (with_signed false c)
      = Fin d' /\
    d == d'.
Proof.
  intros Hb Hw Hr.
  pose proof (with_signed_valid c Hb Hw true) as Hvs.
  pose proof (with_signed_valid c Hb Hw false) as Hvu.
  assert (Hss : steps_in_int32 (with_signed true c))
    by (unfold steps_in_int32; simpl; lia).
  assert (Hsu : steps_in_int32 (with_signed false c))
    by (unfold steps_in_int32; simpl; lia).
  pose proof (rint_scaled_in_range _ Hvs v Hr) as Hks.
  pose proof (rint_scaled_in_range _ Hvu v Hr) as Hku.
  rewrite (discretize_no_overflow _ Hvs v (code_fits _ Hvs Hss _ Hks)).
  rewrite (discretize_no_overflow _ Hvu v (code_fits _ Hvu Hsu _ Hku)).
  rewrite (rint_scaled_signed c Hb v).
  split.
  - unfold min_int. simpl. lia.
  - exists (decoded_q (rint (scaled_q v (with_signed false c))) (with_signed false c)),
           (decoded_q (rint (scaled_q v (with_signed false c))) (with_signed false c)).
    split; [| split; [| reflexivity]].
    + rewrite <- (decoded_q_signed c Hb).
      apply (decode_code _ Hvs Hss).
      rewrite <- (rint_scaled_signed c Hb v). exact Hks.
    + now apply decode_code.
Qed.

Lemma X8_signedness_shifts_codes_witness :
  discretize (Fin (1 # 4)) (with_signed true twelve_byte_angle_config)
    = (discretize (Fin (1 # 4)) (with_signed false twelve_byte_angle_config)
       - 2 ^ (12 - 1))%Z /\
  exists d d',
    decode (discretize (Fin (1 # 4)) (with_signed true twelve_byte_angle_config))
           (with_signed true twelve_byte_angle_config) = Fin d /\
    decode (discretize (Fin (1 # 4)) (with_signed false twelve_byte_angle_config))
           (with_signed false twelve_byte_angle_config) = Fin d' /\
    d == d'.
Proof.
  apply (X8_signedness_shifts_codes twelve_byte_angle_config (1 # 4)).
  - simpl. lia.
  - reflexivity.
  - split; discriminate.
Defined.

(** With one bit the two code ranges round a tie differently: the middle
    of the range decodes to [min_val] unsigned and to [max_val] signed. *)
Example one_bit_signedness_matters :
  decode (discretize (Fin (1 # 2)) (with_signed false unit_conf))
         (with_signed false unit_conf) = Fin 0 /\
  decode (discretize (Fin (1 # 2)) (with_signed true unit_conf))
         (with_signed true unit_conf) = Fin 1.
Proof. split; vm_compute; reflexivity. Qed.

(** ** The naive compressor on codes *)

Section NaiveCodes.

Variable c : bit_conf.
Hypothesis Hvalid : valid_conf c.

Lemma scaled_q_comp (p q : Q) : p == q -> scaled_q p c == scaled_q q c.
Proof. intros E. unfold scaled_q. now rewrite E. Qed.

(** Equal rationals get the same code. *)
Lemma discretize_comp (p q : Q) :
  p == q -> discretize (Fin p) c = discretize (Fin q) c.
Proof.
  intros E. rewrite !(discretize_Fin c Hvalid).
  now rewrite (rint_comp _ _ (scaled_q_comp p q E)).
Qed.

Lemma entry_code_in_range (v : Q) :
  code_range_in_int32 c -> in_range c v ->
  code_in_range c (discretize (Fin v) c).
Proof.
  intros Hf Hr. unfold code_in_range.
  rewrite (discretize_no_overflow c Hvalid v (rint_scaled_fits c Hvalid v Hf Hr)).
  now apply rint_scaled_in_range.
Qed.

Lemma rows_codes_in_range (xs : ndarray Q) :
  code_range_in_int32 c -> all_in_range c xs ->
  all_codes_in_range c (discretize_arr (finite_arr xs) c).
Proof.
  intros Hf. induction 1 as [| [[a b] d] xs [Ha [Hb Hd]] _ IH];
    [constructor |].
  unfold finite_arr, discretize_arr in *. cbn [map map3].
  constructor; [| exact IH].
  unfold code_in_range3. repeat split; now apply entry_code_in_range.
Qed.

Hypothesis Hsteps : steps_in_int32 c.

Lemma entry_undo_direct (k : Z) :
  code_in_range c k -> discretize (decode k c) c = k.
Proof.
  intros Hk. apply (discretize_decode c Hvalid).
  - now apply (code_fits c Hvalid Hsteps).
  - now apply (code_no_wrap c Hvalid Hsteps).
Qed.

(** Adding the idealised value and taking it off again changes no code. *)
Lemma entry_undo_deviation (k : Z) (i : Q) :
  code_in_range c k ->
  discretize (fsub (fadd (decode k c) (Fin i)) (Fin i)) c = k.
Proof.
  intros Hk. pose proof (entry_undo_direct k Hk) as H.
  rewrite (decode_code c Hvalid Hsteps k Hk) in *.
  cbn [fadd fsub fneg]. rewrite <- H at 2.
  apply discretize_comp. ring.
Qed.

Lemma rows_undo_direct (arr : ndarray Z) :
  all_codes_in_range c arr -> discretize_arr (decode_arr arr c) c = arr.
Proof.
  induction 1 as [| [[a b] d] arr [Ha [Hb Hd]] _ IH]; [reflexivity |].
  unfold discretize_arr, decode_arr in *. cbn [map map3].
  now rewrite !entry_undo_direct, IH.
Qed.

Lemma rows_undo_deviation (arr : ndarray Z) (k : vec3 Q) :
  all_codes_in_range c arr ->
  discretize_arr (sub_row (add_row (decode_arr arr c) k) k) c = arr.
Proof.
  destruct k as [[ka kb] kd].
  induction 1 as [| [[a b] d] arr [Ha [Hb Hd]] _ IH]; [reflexivity |].
  unfold discretize_arr, sub_row, add_row, decode_arr in *.
  cbn [map map3 zip3].
  rewrite !entry_undo_deviation by assumption. f_equal. exact IH.
Qed.

End NaiveCodes.

(** X12.  Take [float64] as exact arithmetic.
    Let the three configurations have [1 <= bits <= 31] and
    [max_val > min_val].  On code arrays whose codes lie in the code
    ranges of their classes, [compress] undoes [decompress] exactly:
    compressing the decompressed coordinates gives the same codes. *)
Theorem X12_compress_undoes_decompress (self : Compressor)
    (lc ac dc : bit_conf) (c0 c1 c2 : ndarray Z) :
  config self !! "lengths" = Some lc ->
  config self !! "angles" = Some ac ->
  config self !! "dihedrals" = Some dc ->
  valid_conf lc -> valid_conf ac -> valid_conf dc ->
  (bits lc <= 31)%Z -> (bits ac <= 31)%Z -> (bits dc <= 31)%Z ->
  all_codes_in_range lc c0 -> all_codes_in_range ac c1 ->
  all_codes_in_range dc c2 ->
  exists y, NaiveCompressor.decompress self (c0, c1, c2) = Ok y /\
            NaiveCompressor.compress self y = Ok (c0, c1, c2).
Proof.
  intros Kl Ka Kd Vl Va Vd Sl Sa Sd R0 R1 R2.
  eexists. split.
  - unfold NaiveCompressor.decompress.
    rewrite (getitem_Some _ _ _ Kl), (getitem_Some _ _ _ Ka), (getitem_Some _ _ _ Kd).
    reflexivity.
  - unfold NaiveCompressor.compress.
    rewrite (getitem_Some _ _ _ Kl), (getitem_Some _ _ _ Ka), (getitem_Some _ _ _ Kd).
    cbn [bind].
    rewrite (rows_undo_deviation lc Vl Sl c0 _ R0).
    rewrite (rows_undo_deviation ac Va Sa c1 _ R1).
    now rewrite (rows_undo_direct dc Vd Sd c2 R2).
Qed.

Lemma X12_compress_undoes_decompress_witness :
  exists y,
    NaiveCompressor.decompress {| config := twelve_byte_config |}
      ([((- 32)%Z, 0%Z, 31%Z)], [(0%Z, 2047%Z, 4095%Z)], [(0%Z, 8192%Z, 16383%Z)])
      = Ok y /\
    NaiveCompressor.compress {| config := twelve_byte_config |} y
      = Ok ([((- 32)%Z, 0%Z, 31%Z)], [(0%Z, 2047%Z, 4095%Z)],
            [(0%Z, 8192%Z, 16383%Z)]).
Proof.
  apply (X12_compress_undoes_decompress {| config := twelve_byte_config |}
           twelve_byte_length_config twelve_byte_angle_config
           twelve_byte_torsion_config).
  - vm_compute. reflexivity.
  - vm_compute. reflexivity.
  - vm_compute. reflexivity.
  - split; [simpl; lia | reflexivity].
  - split; [simpl; lia | reflexivity].
  - split; [simpl; lia | reflexivity].
  - simpl. lia.
  - simpl. lia.
  - simpl. lia.
  - constructor; [| constructor].
    unfold code_in_range3, code_in_range. repeat split; discriminate.
  - constructor; [| constructor].
    unfold code_in_range3, code_in_range. repeat split; discriminate.
  - constructor; [| constructor].
    unfold code_in_range3, code_in_range. repeat split; discriminate.
Defined.

(** X13.  Take [float64] as exact arithmetic.
    Let the three configurations have [bits >= 1],
    [max_val > min_val] and a code range inside [int32].  For finite
    coordinates whose deviations and dihedrals lie in the three value
    ranges, every code [compress] returns lies in the code range of its
    class: [bits] bits per entry hold it. *)
Theorem X13_compressed_codes_in_range (self : Compressor)
    (lc ac dc : bit_conf) (bl ba dh : ndarray Q) :
  config self !! "lengths" = Some lc ->
  config self !! "angles" = Some ac ->
  config self !! "dihedrals" = Some dc ->
  valid_conf lc -> valid_conf ac -> valid_conf dc ->
  code_range_in_int32 lc -> code_range_in_int32 ac -> code_range_in_int32 dc ->
  all_in_range lc (deviations bl BACKBONE_BOND_LENGTHS) ->
  all_in_range ac (deviations ba BACKBONE_ANGLES) ->
  all_in_range dc dh ->
  exists ql qa qd,
    NaiveCompressor.compress self (finite_arr bl, finite_arr ba, finite_arr dh)
      = Ok (ql, qa, qd) /\
    all_codes_in_range lc ql /\ all_codes_in_range ac qa /\
    all_codes_in_range dc qd.
Proof.
  intros Kl Ka Kd Vl Va Vd Fl Fa Fd Rl Ra Rd.
  eexists _, _, _. split.
  - unfold NaiveCompressor.compress.
    rewrite (getitem_Some _ _ _ Kl), (getitem_Some _ _ _ Ka), (getitem_Some _ _ _ Kd).
    cbn [bind]. now rewrite !sub_row_finite.
  - split; [| split]; now apply rows_codes_in_range.
Qed.

Lemma X13_compressed_codes_in_range_witness :
  exists ql qa qd,
    NaiveCompressor.compress {| config := twelve_byte_config |}
      (finite_arr [(11 # 8, 3 # 2, 25 # 16)],
       finite_arr [(9 # 8, 1, 5 # 4)],
       finite_arr [(3, - 3, 0)])
      = Ok (ql, qa, qd) /\
    all_codes_in_range twelve_byte_length_config ql /\
    all_codes_in_range twelve_byte_angle_config qa /\
    all_codes_in_range twelve_byte_torsion_config qd.
Proof.
  apply (X13_compressed_codes_in_range {| config := twelve_byte_config |}).
  - vm_compute. reflexivity.
  - vm_compute. reflexivity.
  - vm_compute. reflexivity.
  - split; [simpl; lia | reflexivity].
  - split; [simpl; lia | reflexivity].
  - split; [simpl; lia | reflexivity].
  - unfold code_range_in_int32. simpl. lia.
  - unfold code_range_in_int32. simpl. lia.
  - unfold code_range_in_int32. simpl. lia.
  - constructor; [| constructor].
    unfold in_range3, in_range. cbn [zip3]. repeat split; discriminate.
  - constructor; [| constructor].
    unfold in_range3, in_range. cbn [zip3]. repeat split; discriminate.
  - constructor; [| constructor].
    unfold in_range3, in_range. repeat split; discriminate.
Defined.

(** ** The twelve-byte configuration *)

Section DeviationRows.

Variable c : bit_conf.
Variable P : Q -> Prop.
Hypothesis entry_ok :
  forall v, P v -> within (decode (discretize (Fin v) c) c) v (half_step c) = true.

Lemma entry_deviation_ok (a k : Q) :
  P (a - k) ->
  within (fadd (decode (discretize (Fin (a - k)) c) c) (Fin k)) a (half_step c)
  = true.
Proof.
  intros Hp. pose proof (entry_ok _ Hp) as H.
  apply within_spec in H. destruct H as [d [-> Hd]].
  apply within_spec. exists (d + k). split; [reflexivity |].
  assert (E : d + k - a == d - (a - k)) by ring.
  now rewrite E.
Qed.

Lemma rows_deviation_ok (xs : ndarray Q) (k : vec3 Q) :
  Forall (fun r : vec3 Q => let '(a, b, d) := zip3 Qminus r k in
                            P a /\ P b /\ P d) xs ->
  all_within xs
    (add_row (decode_arr (discretize_arr (sub_row (finite_arr xs) k) c) c) k)
    (half_step c)
  = true.
Proof.
  rewrite sub_row_finite. destruct k as [[ka kb] kd].
  induction xs as [| [[a b] d] xs IH]; [reflexivity |].
  intros H. inversion H as [| r rs Hrow Hrest]; subst.
  cbn [zip3] in Hrow. destruct Hrow as [Ha [Hb Hd]].
  specialize (IH Hrest).
  unfold finite_arr, deviations, discretize_arr, decode_arr, add_row in *.
  cbn [map map3 zip3 all_within within3].
  rewrite !entry_deviation_ok by assumption. exact IH.
Qed.

End DeviationRows.

Lemma twelve_byte_angle_valid : valid_conf twelve_byte_angle_config.
Proof. split; [simpl; lia | reflexivity]. Qed.

(** The unsigned angle configuration starts at [0], but a bond angle
    below its idealised value, a negative deviation, is still coded (by a
    negative code) and decoded within half a step. *)
Lemma twelve_byte_angle_entry (v : Q) :
  - 2 <= v <= 4 ->
  within (decode (discretize (Fin v) twelve_byte_angle_config)
                 twelve_byte_angle_config)
         v (half_step twelve_byte_angle_config) = true.
Proof.
  intros [Hlo Hhi].
  pose proof twelve_byte_angle_valid as Hv.
  assert (Hk : (- 2607 <= rint (scaled_q v twelve_byte_angle_config) <= 5214)%Z).
  { split.
    - change (- 2607)%Z with (rint (scaled_q (- 2) twelve_byte_angle_config)).
      now apply rint_mono, scaled_q_mono.
    - change 5214%Z with (rint (scaled_q 4 twelve_byte_angle_config)).
      now apply rint_mono, scaled_q_mono. }
  apply (roundtrip_within _ Hv).
  - apply in_int32_iff. unfold INT32_MIN, INT32_MAX. lia.
  - change (min_int twelve_byte_angle_config) with 0%Z.
    apply in_int32_iff. unfold INT32_MIN, INT32_MAX. lia.
Qed.

(** X14.  Take [float64] as exact arithmetic.
    With the twelve-byte configuration of the notebook the round
    trip succeeds and keeps every entry within half a step of its class,
    for finite coordinates with bond-length deviations from
    [BACKBONE_BOND_LENGTHS] in [-0.05, 0.4], bond angles anywhere in
    [0, pi] and dihedrals in [-pi, pi].  The angle configuration gives
    no [min_val], so its range starts at [0]; bond angles below the
    idealised ones are outside it and are handled all the same. *)
Theorem X14_twelve_byte_round_trip (bl ba dh : ndarray Q) :
  all_in_range twelve_byte_length_config (deviations bl BACKBONE_BOND_LENGTHS) ->
  rows_between 0 np_pi ba ->
  all_in_range twelve_byte_torsion_config dh ->
  exists yl ya yd,
    round_trip {| config := twelve_byte_config |}
               (finite_arr bl, finite_arr ba, finite_arr dh) = Ok (yl, ya, yd) /\
    all_within bl yl (half_step twelve_byte_length_config) = true /\
    all_within ba ya (half_step twelve_byte_angle_config) = true /\
    all_within dh yd (half_step twelve_byte_torsion_config) = true.
Proof.
  intros Rl Ra Rd.
  assert (Vl : valid_conf twelve_byte_length_config)
    by (split; [simpl; lia | reflexivity]).
  assert (Vd : valid_conf twelve_byte_torsion_config)
    by (split; [simpl; lia | reflexivity]).
  assert (Sl : steps_in_int32 twelve_byte_length_config)
    by (unfold steps_in_int32; simpl; lia).
  assert (Sd : steps_in_int32 twelve_byte_torsion_config)
    by (unfold steps_in_int32; simpl; lia).
  eexists _, _, _. split; [| split; [| split]].
  - unfold round_trip, NaiveCompressor.compress, NaiveCompressor.decompress.
    cbn [config].
    rewrite (getitem_Some twelve_byte_config "lengths" twelve_byte_length_config)
      by (vm_compute; reflexivity).
    rewrite (getitem_Some twelve_byte_config "angles" twelve_byte_angle_config)
      by (vm_compute; reflexivity).
    rewrite (getitem_Some twelve_byte_config "dihedrals" twelve_byte_torsion_config)
      by (vm_compute; reflexivity).
    reflexivity.
  - apply (rows_deviation_ok _ (in_range twelve_byte_length_config)).
    + intros v Hr. now apply roundtrip_in_range.
    + unfold all_in_range, deviations in Rl.
      exact (proj1 (List.Forall_map _ _ _) Rl).
  - apply (rows_deviation_ok _ (fun v => - 2 <= v <= 4)).
    + exact twelve_byte_angle_entry.
    + clear -Ra. induction Ra as [| [[a b] d] xs [Ha [Hb Hd]] _ IH];
        constructor; [| exact IH].
      unfold BACKBONE_ANGLES. cbn [zip3]. unfold np_pi in *.
      repeat split; lra.
  - now apply rows_direct.
Qed.

Lemma X14_twelve_byte_round_trip_witness :
  exists yl ya yd,
    round_trip {| config := twelve_byte_config |}
               (finite_arr [(11 # 8, 3 # 2, 25 # 16)],
                finite_arr [(1, 7 # 8, 2)],
                finite_arr [(3, - 3, 0)]) = Ok (yl, ya, yd) /\
    all_within [(11 # 8, 3 # 2, 25 # 16)] yl
               (half_step twelve_byte_length_config) = true /\
    all_within [(1, 7 # 8, 2)] ya (half_step twelve_byte_angle_config) = true /\
    all_within [(3, - 3, 0)] yd (half_step twelve_byte_torsion_config) = true.
Proof.
  apply X14_twelve_byte_round_trip.
  - constructor; [| constructor].
    unfold in_range3, in_range. cbn [zip3]. repeat split; discriminate.
  - constructor; [| constructor]. repeat split; discriminate.
  - constructor; [| constructor].
    unfold in_range3, in_range. repeat split; discriminate.
Defined.

(** The bond angle [1], below the idealised [1.095], gets a negative
    code under the unsigned angle configuration. *)
Example twelve_byte_negative_angle_code :
  NaiveCompressor.compress {| config := twelve_byte_config |}
    ([], finite_arr [(1, 7 # 8, 2)], [])
  = Ok ([], [((- 124)%Z, (- 137)%Z, 1043%Z)], []).
Proof. vm_compute. reflexivity. Qed.

(** ** Outliers *)

Lemma rint_lower (q : Q) : q - (1 # 2) <= inject_Z (rint q).
Proof.
  pose proof (rint_close q) as H. apply Qabs_Qle_condition in H. lra.
Qed.

Lemma rint_upper (q : Q) : inject_Z (rint q) <= q + (1 # 2).
Proof.
  pose proof (rint_close q) as H. apply Qabs_Qle_condition in H. lra.
Qed.

(** The scaled value moves by more than one half when the input moves by
    more than half a step. *)
Lemma scaled_gap (c : bit_conf) (k : Z) (v : Q) :
  valid_conf c -> half_step c < v - decoded_q k c ->
  (1 # 2) < scaled_q v c - inject_Z k.
Proof.
  intros Hv H. rewrite (scaled_from_level c Hv k v).
  pose proof (step_pos c Hv) as Hp.
  pose proof (step_twice_half_step c Hv) as E.
  pose proof (width_pos c Hv) as Hw. pose proof (steps_Q_pos c Hv) as Hq.
  set (a := (max_val c - min_val c) / inject_Z (max_int c - min_int c)) in *.
  assert (Ei : inject_Z (max_int c - min_int c) / (max_val c - min_val c) == / a).
  { unfold a. field. split; intros E'; lra. }
  rewrite Ei. set (e := v - decoded_q k c) in *. clearbody a e.
  assert (Hia : 0 < / a) by now apply Qinv_lt_0_compat.
  assert (Eh : half_step c == a * (1 # 2)) by lra.
  assert (Hh : half_step c * / a == 1 # 2).
  { rewrite Eh. field. intros E'; lra. }
  rewrite <- Hh. now apply Qmult_lt_compat_r.
Qed.

Lemma scaled_gap_below (c : bit_conf) (k : Z) (v : Q) :
  valid_conf c -> half_step c < decoded_q k c - v ->
  scaled_q v c - inject_Z k < - (1 # 2).
Proof.
  intros Hv H. rewrite (scaled_from_level c Hv k v).
  pose proof (step_pos c Hv) as Hp.
  pose proof (step_twice_half_step c Hv) as E.
  pose proof (width_pos c Hv) as Hw. pose proof (steps_Q_pos c Hv) as Hq.
  set (a := (max_val c - min_val c) / inject_Z (max_int c - min_int c)) in *.
  assert (Ei : inject_Z (max_int c - min_int c) / (max_val c - min_val c) == / a).
  { unfold a. field. split; intros E'; lra. }
  rewrite Ei. set (e := v - decoded_q k c) in *.
  assert (He : e < - half_step c) by (unfold e; lra).
  clearbody a e.
  assert (Hia : 0 < / a) by now apply Qinv_lt_0_compat.
  assert (Eh : half_step c == a * (1 # 2)) by lra.
  assert (Hn : (- half_step c) * / a == - (1 # 2)).
  { rewrite Eh. field. intros E'; lra. }
  rewrite <- Hn. now apply Qmult_lt_compat_r.
Qed.

(** X15.  Take [float64] as exact arithmetic.
    Nothing clamps an outlier.  For [1 <= bits <= 31] and
    [max_val > min_val], a finite value more than half a step above
    [max_val] gets a code above [max_int], and one more than half a step
    below [min_val] a code below [min_int], as long as the code fits
    [int32]: the code then no longer fits in [bits] bits. *)
Theorem X15_outlier_leaves_code_range (c : bit_conf) (v : Q) :
  valid_conf c -> (bits c <= 31)%Z -> in_int32 (rint (scaled_q v c)) = true ->
  (max_val c + half_step c < v -> (max_int c < discretize (Fin v) c)%Z) /\
  (v < min_val c - half_step c -> (discretize (Fin v) c < min_int c)%Z).
Proof.
  intros Hv _ Hfit. rewrite (discretize_no_overflow c Hv v Hfit). split.
  - intros H. rewrite Zlt_Qlt.
    pose proof (decoded_q_max c Hv) as Em.
    assert (Hg : half_step c < v - decoded_q (max_int c) c) by (rewrite Em; lra).
    pose proof (scaled_gap c (max_int c) v Hv Hg) as Hs.
    pose proof (rint_lower (scaled_q v c)) as Hr. lra.
  - intros H. rewrite Zlt_Qlt.
    pose proof (decoded_q_min c Hv) as Em.
    assert (Hg : half_step c < decoded_q (min_int c) c - v) by (rewrite Em; lra).
    pose proof (scaled_gap_below c (min_int c) v Hv Hg) as Hs.
    pose proof (rint_upper (scaled_q v c)) as Hr. lra.
Qed.

Lemma X15_outlier_leaves_code_range_witness :
  (max_int twelve_byte_length_config
   < discretize (Fin 2) twelve_byte_length_config)%Z.
Proof.
  apply (proj1 (X15_outlier_leaves_code_range twelve_byte_length_config 2
                  ltac:(split; [simpl; lia | reflexivity])
                  ltac:(simpl; lia)
                  ltac:(vm_compute; reflexivity))).
  reflexivity.
Defined.

(** ** The label of a structure *)

Section Labels.

Variable sep : ascii.

Lemma split_not_nil (s : string) : split sep s <> [].
Proof.
  induction s as [| x s IH]; simpl; [discriminate |].
  destruct (Ascii.eqb x sep); [discriminate |].
  destruct (split sep s); [contradiction | discriminate].
Qed.

(** Without the separator there is one piece, the string itself. *)
Lemma split_no_sep (s : string) : occurs sep s = false -> split sep s = [s].
Proof.
  induction s as [| x s IH]; simpl; [reflexivity |].
  intros H. apply orb_false_iff in H. destruct H as [Hx Hs].
  rewrite Hx, (IH Hs). reflexivity.
Qed.

(** Cutting at a separator: some pieces, then the pieces of the rest. *)
Lemma split_at_sep (a b : string) :
  exists p ps, split sep (a +:+ String sep b) = (p :: ps) ++ split sep b.
Proof.
  induction a as [| x a [p [ps IH]]]; simpl.
  - rewrite Ascii.eqb_refl. now exists EmptyString, [].
  - destruct (Ascii.eqb x sep).
    + exists EmptyString, (p :: ps). now rewrite IH.
    + rewrite IH. now exists (String x p), ps.
Qed.

(** The last piece is what follows the last separator. *)
Lemma split_last (a b : string) :
  occurs sep b = false ->
  List.last (split sep (a +:+ String sep b)) EmptyString = b.
Proof.
  intros Hb. destruct (split_at_sep a b) as [p [ps ->]].
  rewrite (split_no_sep b Hb). apply List.last_last.
Qed.

(** The first piece is what precedes the first separator. *)
Lemma split_hd (a b : string) :
  occurs sep a = false ->
  List.hd EmptyString (split sep (a +:+ String sep b)) = a.
Proof.
  induction a as [| x a IH]; simpl.
  - intros _. now rewrite Ascii.eqb_refl.
  - intros H. apply orb_false_iff in H. destruct H as [Hx Ha].
    rewrite Hx. specialize (IH Ha).
    destruct (split sep (a +:+ String sep b)) as [| p ps]; simpl in *;
      now subst.
Qed.

(** No piece contains the separator, nor a character the string lacks. *)
Lemma split_pieces (x : ascii) (s : string) :
  (x = sep \/ occurs x s = false) ->
  Forall (fun p => occurs x p = false) (split sep s).
Proof.
  induction s as [| y s IH]; intros H; simpl.
  - constructor; [reflexivity | constructor].
  - assert (H' : x = sep \/ occurs x s = false).
    { destruct H as [H | H]; [now left |].
      simpl in H. apply orb_false_iff in H. now right. }
    specialize (IH H').
    destruct (Ascii.eqb y sep) eqn:E.
    + constructor; [reflexivity | exact IH].
    + destruct (split sep s) as [| p ps].
      * constructor; [| constructor]. simpl. rewrite orb_false_r.
        destruct H as [-> | H]; [exact E |].
        simpl in H. apply orb_false_iff in H. apply H.
      * inversion IH as [| p' ps' Hp Hps]; subst.
        constructor; [| exact Hps]. simpl. rewrite Hp, orb_false_r.
        destruct H as [-> | H]; [exact E |].
        simpl in H. apply orb_false_iff in H. apply H.
Qed.

End Labels.

Lemma occurs_append (x : ascii) (a b : string) :
  occurs x (a +:+ b) = occurs x a || occurs x b.
Proof.
  induction a as [| y a IH]; simpl; [reflexivity |].
  now rewrite IH, orb_assoc.
Qed.

Lemma Forall_last_default {A : Type} (P : A -> Prop) (l : list A) (d : A) :
  Forall P l -> P d -> P (List.last l d).
Proof.
  intros H Hd. induction H as [| x l Hx Hl IH]; [exact Hd |].
  destruct l; [exact Hx | exact IH].
Qed.

Lemma Forall_hd_default {A : Type} (P : A -> Prop) (l : list A) (d : A) :
  Forall P l -> P d -> P (List.hd d l).
Proof. intros H Hd. destruct H; [exact Hd | assumption]. Qed.

(** X16.  The label [round_trip_rmsd] prints for a structure file is the
    file name cut at its first dot: for a path [dir/stem.rest], with no
    slash in [stem.rest] and no dot in [stem], it is [stem], whatever the
    directory, and the same without a directory.  A name with several
    dots loses everything after the first. *)
Theorem X16_pdb_id_is_the_stem (dir stem rest : string) :
  occurs "/" stem = false -> occurs "." stem = false ->
  occurs "/" rest = false ->
  pdb_id (dir +:+ String "/" (stem +:+ String "." rest)) = stem /\
  pdb_id (stem +:+ String "." rest) = stem.
Proof.
  intros Hs Hd Hr.
  assert (Hname : occurs "/" (stem +:+ String "." rest) = false).
  { rewrite occurs_append. simpl. now rewrite Hs, Hr. }
  unfold pdb_id. split.
  - rewrite (split_last "/" dir _ Hname). now apply split_hd.
  - rewrite (split_no_sep "/" _ Hname). simpl. now apply split_hd.
Qed.

Lemma X16_pdb_id_is_the_stem_witness :
  pdb_id ("../tests" +:+ String "/" ("AF-Q9R172-F1-model_v4" +:+ String "." "pdb"))
    = "AF-Q9R172-F1-model_v4"%string /\
  pdb_id ("AF-Q9R172-F1-model_v4" +:+ String "." "pdb")
    = "AF-Q9R172-F1-model_v4"%string.
Proof.
  apply (X16_pdb_id_is_the_stem "../tests" "AF-Q9R172-F1-model_v4" "pdb");
    reflexivity.
Defined.

(** X17.  Whatever the path, the label of a structure contains neither a
    slash nor a dot. *)
Theorem X17_pdb_id_has_no_slash_no_dot (pdb_file : string) :
  occurs "/" (pdb_id pdb_file) = false /\ occurs "." (pdb_id pdb_file) = false.
Proof.
  unfold pdb_id.
  assert (Hname : occurs "/" (List.last (split "/" pdb_file) EmptyString) = false).
  { apply (Forall_last_default (fun p => occurs "/" p = false));
      [apply split_pieces; now left | reflexivity]. }
  split.
  - apply (Forall_hd_default (fun p => occurs "/" p = false));
      [apply split_pieces; now right | reflexivity].
  - apply (Forall_hd_default (fun p => occurs "." p = false));
      [apply split_pieces; now left | reflexivity].
Qed.

(** The four structure files of [round_trip_rmsd] and their labels. *)
Example pdb_id_of_the_test_files :
  map pdb_id ["../tests/AF-Q9R172-F1-model_v4.pdb";
              "../tests/AF-V9HVX0-F1-model_v4.pdb";
              "../tests/1qys.pdb"; "../tests/1aq1.pdb"]%string
  = ["AF-Q9R172-F1-model_v4"; "AF-V9HVX0-F1-model_v4"; "1qys"; "1aq1"]%string.
Proof. reflexivity. Qed.
